(** * The colour-difference game of [src/App.tsx]

    A shallow embedding of the round generator [generateColors] and of the
    session logic of the [App] component ([startGame], [nextLevel],
    [handleBlockClick], the countdown effect, the celebration effect, what
    the render shows of the state, and the grid that stays on screen while
    it fades out), followed by the properties of the engine.

    Conventions.
    - JavaScript numbers that the engine only ever uses as integers (level,
      score, seconds, indices, colour components) are [Z].
    - [Math.random()] is a rational in [[0,1)], read from an oracle that is
      part of the state of the world; products with it are exact, and
      [Math.floor] is [Qfloor]. (For the factors the generator uses, 360,
      40 and the squares of 2 to 8, the rounded product of a double below 1
      stays below the factor, so the floors have the same range.)
    - [level / 4] is the JavaScript (real) division, so it is a [Q] too. *)

From Stdlib Require Import ZArith QArith Qround Bool List String Lia.
From Stdlib Require Import DecimalString DecimalPos DecimalZ Ascii.
Import ListNotations.

Local Open Scope Z_scope.

(** ** Types *)

(** [interface Color] *)
Record Color := mkColor { h : Z; s : Z; l : Z }.

(** [GameState['status']] *)
Inductive Status := idle | playing | gameover.

(** [GameState['lastDiffInfo']] *)
Record DiffInfo := mkDiffInfo { base : string; diff : string; delta : Z }.

(** [interface GameState]; the optional field is an [option]. *)
Record GameState := mkGameState {
  status : Status;
  score : Z;
  timeLeft : Z;
  level : Z;
  gridSize : Z;
  baseColor : Color;
  diffColor : Color;
  diffIndex : Z;
  lastDiffInfo : option DiffInfo
}.

Definition Status_eqb (a b : Status) : bool :=
  match a, b with
  | idle, idle | playing, playing | gameover, gameover => true
  | _, _ => false
  end.

(** ** The source of randomness *)

(** The global generator behind [Math.random()]: the sequence of numbers it
    is going to return, and how many of them have been consumed. *)
Record Rng := mkRng { draws : nat -> Q; pos : nat }.

(** Every number the generator returns is in [[0,1)]. *)
Definition Rng_ok (g : Rng) : Prop :=
  forall n, (0 <= draws g n)%Q /\ (draws g n < 1)%Q.

(** Computations that consume random numbers. *)
Definition Rand (A : Type) : Type := Rng -> A * Rng.

Definition ret {A} (a : A) : Rand A := fun g => (a, g).

Definition bind {A B} (m : Rand A) (k : A -> Rand B) : Rand B :=
  fun g => let (a, g') := m g in k a g'.

Notation "x <- m ;; k" := (bind m (fun x => k))
  (at level 61, m at next level, right associativity).

(** [Math.random()] *)
Definition Math_random : Rand Q :=
  fun g => (draws g (pos g), mkRng (draws g) (S (pos g))).

(** [Math.floor(Math.random() * n)] *)
Definition random_below (n : Z) : Rand Z :=
  r <- Math_random ;; ret (Qfloor (r * inject_Z n)).

(** The [k]-th number the generator is going to return from now on. *)
Definition nth_draw (g : Rng) (k : nat) : Q := draws g (pos g + k)%nat.

(** ** Constants *)

Definition INITIAL_TIME : Z := 60.
Definition MIN_DELTA : Z := 1.

(** ** Utils *)

(** [${n}] for an integer [n]: its decimal notation. *)
Definition number_toString (n : Z) : string :=
  NilZero.string_of_int (Z.to_int n).

(** [colorToCSS]: [`hsl(${c.h}, ${c.s}%, ${c.l}%)`] *)
Definition colorToCSS (c : Color) : string :=
  ("hsl(" ++ number_toString (h c) ++ ", " ++ number_toString (s c) ++ "%, "
     ++ number_toString (l c) ++ "%)")%string.

(** What [generateColors] returns. *)
Record Round := mkRound {
  r_baseColor : Color;
  r_diffColor : Color;
  r_diffIndex : Z;
  r_gridSize : Z;
  r_delta : Z
}.

(** [Math.max(MIN_DELTA, 15 - Math.floor(level / 4))] *)
Definition delta_of (level : Z) : Z :=
  Z.max MIN_DELTA (15 - Qfloor (inject_Z level / 4)).

(** The cascade of [if (level > b) gridSize = n;] statements, each one
    overwriting the variable. *)
Definition gridSize_of (level : Z) : Z :=
  let gridSize := 2 in
  let gridSize := if level >? 2 then 3 else gridSize in
  let gridSize := if level >? 6 then 4 else gridSize in
  let gridSize := if level >? 12 then 5 else gridSize in
  let gridSize := if level >? 20 then 6 else gridSize in
  let gridSize := if level >? 30 then 7 else gridSize in
  let gridSize := if level >? 45 then 8 else gridSize in
  gridSize.

(** [Math.random() > 0.5] *)
Definition above_half (r : Q) : bool := negb (Qle_bool r (1 # 2)).

(** [generateColors] *)
Definition generateColors (level : Z) : Rand Round :=
  h <- random_below 360 ;;
  s0 <- random_below 40 ;;
  let s := s0 + 40 in
  l0 <- random_below 40 ;;
  let l := l0 + 30 in
  let delta := delta_of level in
  r <- Math_random ;;
  let isLighter := above_half r in
  let diffL := if isLighter then l + delta else l - delta in
  let baseColor := mkColor h s l in
  let diffColor := mkColor h s diffL in
  let gridSize := gridSize_of level in
  diffIndex <- random_below (gridSize * gridSize) ;;
  ret (mkRound baseColor diffColor diffIndex gridSize delta).

(** A generator that always returns the same number, for concrete runs. *)
Definition constRng (q : Q) : Rng := mkRng (fun _ => q) 0.

(** ** The session: the [App] component *)

(** The state [useState] is initialised with. *)
Definition initialState : GameState :=
  mkGameState idle 0 INITIAL_TIME 1 2 (mkColor 0 0 0) (mkColor 0 0 0) 0 None.

(** [startGame]: the object handed to [setState]. It has no [lastDiffInfo]
    key, and it replaces the state whole. *)
Definition startGame : Rand GameState :=
  r <- generateColors 1 ;;
  ret (mkGameState playing 0 INITIAL_TIME 1 (r_gridSize r)
         (r_baseColor r) (r_diffColor r) (r_diffIndex r) None).

(** [nextLevel]: the round is generated in the body of the callback, the
    state is then updated through the function handed to [setState]. *)
Definition nextLevel (currentLevel currentScore : Z)
  : Rand (GameState -> GameState) :=
  let nextLvl := currentLevel + 1 in
  r <- generateColors nextLvl ;;
  ret (fun prev =>
         mkGameState (status prev) (currentScore + 1) (timeLeft prev) nextLvl
           (r_gridSize r) (r_baseColor r) (r_diffColor r) (r_diffIndex r)
           (Some (mkDiffInfo (colorToCSS (baseColor prev))
                    (colorToCSS (diffColor prev)) (r_delta r)))).

(** The updater of the wrong-answer branch of [handleBlockClick]. *)
Definition penalty (prev : GameState) : GameState :=
  mkGameState (status prev) (score prev) (Z.max 0 (timeLeft prev - 3))
    (level prev) (gridSize prev) (baseColor prev) (diffColor prev)
    (diffIndex prev) (lastDiffInfo prev).

(** [handleBlockClick]: [state] is the state of the render the handler
    belongs to; the result is the update it queues (none on the early
    [return]). *)
Definition handleBlockClick (state : GameState) (index : Z)
  : Rand (GameState -> GameState) :=
  if negb (Status_eqb (status state) playing) then ret (fun prev => prev)
  else if index =? diffIndex state then nextLevel (level state) (score state)
  else ret penalty.

(** The updater of the interval callback, with whether it clears the
    interval. *)
Definition timerCallback (prev : GameState) : GameState * bool :=
  if timeLeft prev <=? 1 then
    (mkGameState gameover (score prev) 0 (level prev) (gridSize prev)
       (baseColor prev) (diffColor prev) (diffIndex prev) (lastDiffInfo prev),
     true)
  else
    (mkGameState (status prev) (score prev) (timeLeft prev - 1) (level prev)
       (gridSize prev) (baseColor prev) (diffColor prev) (diffIndex prev)
       (lastDiffInfo prev),
     false).

(** The body of the countdown effect: is an interval running after it? *)
Definition timerEffect (st : GameState) : bool :=
  Status_eqb (status st) playing && (timeLeft st >? 0).

(** The component between two events: its committed state, whether the
    one-second interval is running, and the random generator. *)
Record World := mkWorld { state : GameState; ticking : bool; rng : Rng }.

(** A render that commits [st']: the countdown effect has [state.status] as
    its only dependency, so it is cleaned up and run again exactly when the
    status has changed. *)
Definition commit (w : World) (st' : GameState) (ticking' : bool) (g' : Rng)
  : World :=
  mkWorld st'
    (if Status_eqb (status (state w)) (status st') then ticking'
     else timerEffect st')
    g'.

(** The mounted component. *)
Definition init (g : Rng) : World :=
  mkWorld initialState (timerEffect initialState) g.

(** The three events. Events are handled one at a time, each one on the
    state the previous one committed. *)
Definition start (w : World) : World :=
  let (st', g') := startGame (rng w) in commit w st' (ticking w) g'.

(** A click on a block of the grid drawn by the render of state [closure]:
    the handler tests and reads [closure], the update it queues is applied
    to the committed state. *)
Definition click (closure : GameState) (w : World) (index : Z) : World :=
  let (update, g') := handleBlockClick closure index (rng w) in
  commit w (update (state w)) (ticking w) g'.

(** A click on a grid drawn from the committed state itself; this is every
    click of a playing session, whose grid is drawn again by each render.
    (The clicks on a grid that is still on screen after the end of the
    session are those of [click] with the state of its last render, see
    [Screen] below.) *)
Definition select (w : World) (index : Z) : World :=
  let (update, g') := handleBlockClick (state w) index (rng w) in
  commit w (update (state w)) (ticking w) g'.

Definition tick (w : World) : World :=
  if ticking w then
    let (st', cleared) := timerCallback (state w) in
    commit w st' (negb cleared) (rng w)
  else w.

Inductive Event := Start | Select (index : Z) | Tick.

Definition step (w : World) (e : Event) : World :=
  match e with
  | Start => start w
  | Select index => select w index
  | Tick => tick w
  end.

Definition run (es : list Event) (w : World) : World := fold_left step es w.

(** The states of the component that a sequence of events leads to. *)
Inductive reachable : World -> Prop :=
| reachable_init g : Rng_ok g -> reachable (init g)
| reachable_step w e : reachable w -> reachable (step w e).

(** ** The tables of the specification *)

(** The breakpoint table of the grid size, by inclusive lower bounds. *)
Definition gridSize_table (L : Z) : Z :=
  if 46 <=? L then 8
  else if 31 <=? L then 7
  else if 21 <=? L then 6
  else if 13 <=? L then 5
  else if 7 <=? L then 4
  else if 3 <=? L then 3
  else 2.

(** ** Concrete sessions *)

(** The generator that always returns 0.25: every round has hue 90,
    saturation 50 and lightness 40, its odd block is the darker one, at
    index 1 on the 2 x 2 grid and at index 2 on the 3 x 3 grid. *)
Definition quarter : Rng := constRng (1 # 4).

(** The session at level 3: after a start and two correct selections. *)
Definition at_level3 : World := run [Start; Select 1; Select 1] (init quarter).

(** A started session, one two seconds before its end, and an ended one. *)
Definition started : World := run [Start] (init quarter).
Definition two_left : World := run (Start :: repeat Tick 58) (init quarter).
Definition ended : World := run (Start :: repeat Tick 60) (init quarter).

(** Events other than [start()]. *)
Definition not_start (e : Event) : bool :=
  match e with Start => false | _ => true end.

(** [n] seconds taken off the clock. *)
Definition elapse (n : Z) (st : GameState) : GameState :=
  mkGameState (status st) (score st) (timeLeft st - n) (level st)
    (gridSize st) (baseColor st) (diffColor st) (diffIndex st)
    (lastDiffInfo st).

(** ** The invariant of the session *)

(** The countdown runs exactly while the session is playing; the clock is
    never negative; level and score stay in their ranges; the generator
    stays a generator. *)
Record Inv (w : World) : Prop := mkInv {
  inv_ticking : ticking w = Status_eqb (status (state w)) playing;
  inv_timeLeft : 0 <= timeLeft (state w);
  inv_level : 1 <= level (state w);
  inv_score : 0 <= score (state w);
  inv_rng : Rng_ok (rng w)
}.

(** ** What the render shows *)

(** The indices [i] of
    [Array.from({ length: state.gridSize * state.gridSize }).map((_, i) => ...)]. *)
Definition blocks (st : GameState) : list Z :=
  map Z.of_nat (seq 0 (Z.to_nat (gridSize st * gridSize st))).

(** The [backgroundColor] of block [i]. *)
Definition blockColor (st : GameState) (i : Z) : string :=
  if i =? diffIndex st then colorToCSS (diffColor st)
  else colorToCSS (baseColor st).

(** The colours of the blocks of the grid, in order. *)
Definition renderGrid (st : GameState) : list string :=
  map (blockColor st) (blocks st).

(** [Math.min(100, Math.floor((state.score / 40) * 100))]. (On integer
    scores the double computation gives the same integer as the exact one:
    from 40 on the quotient is at least 1 and the minimum is 100, and the 40
    scores below have been compared one by one.) *)
Definition visualPrecision (score : Z) : Z :=
  Z.min 100 (Qfloor (inject_Z score / 40 * 100)).

(** The condition of the celebration effect. *)
Definition confettiEffect (st : GameState) : bool :=
  Status_eqb (status st) gameover && (score st >? 20).

(** Does the render that replaces the state of [w] by the one of [w'] throw
    confetti? The effect has [state.status] and [state.score] as its
    dependencies, so it runs when one of them has changed. *)
Definition confettiFires (w w' : World) : bool :=
  (negb (Status_eqb (status (state w)) (status (state w')))
   || negb (score (state w) =? score (state w')))
  && confettiEffect (state w').

(** ** Vocabulary of the properties *)

(** Reading a decimal notation back. *)
Definition number_ofString (str : string) : option Z :=
  option_map Z.of_int (NilZero.int_of_string str).

(** The characters of a string all satisfy [p]. *)
Fixpoint all_chars (p : ascii -> bool) (str : string) : bool :=
  match str with
  | EmptyString => true
  | String c rest => p c && all_chars p rest
  end.

(** The characters that are neither of the separators [,] and [%] of the
    CSS notation; digits and the sign are among them. *)
Definition num_char (c : ascii) : bool :=
  negb (Ascii.eqb c ",") && negb (Ascii.eqb c "%").

(** How many ticks and how many selections a sequence of events holds. *)
Definition is_tick (e : Event) : bool :=
  match e with Tick => true | _ => false end.

Definition is_select (e : Event) : bool :=
  match e with Select _ => true | _ => false end.

Definition ticks (es : list Event) : Z :=
  Z.of_nat (List.length (filter is_tick es)).

Definition selects (es : list Event) : Z :=
  Z.of_nat (List.length (filter is_select es)).

(** A pair of colours as [generateColors] makes them for level [L]: same hue
    and saturation, in their ranges, and lightnesses [delta_of L] apart. *)
Record round_colors (L : Z) (b d : Color) : Prop := mkRoundColors {
  rc_h : h d = h b;
  rc_s : s d = s b;
  rc_l : l d = l b + delta_of L \/ l d = l b - delta_of L;
  rc_h_range : 0 <= h b < 360;
  rc_s_range : 40 <= s b < 80;
  rc_l_range : 30 <= l b <= 69
}.

(** What the last comparison holds, in a session at level [L]. *)
Definition last_shape (L : Z) (sc : Z) (o : option DiffInfo) : Prop :=
  match o with
  | None => sc = 0
  | Some d =>
      1 <= sc /\ delta d = delta_of L /\
      exists b c, base d = colorToCSS b /\ diff d = colorToCSS c /\
                  round_colors (L - 1) b c
  end.

(** The shape of the state of a session. *)
Record Shape (st : GameState) : Prop := mkShape {
  shape_level : 1 <= level st;
  shape_score : score st = level st - 1;
  shape_grid : gridSize st = gridSize_of (level st);
  shape_index : 0 <= diffIndex st < gridSize st * gridSize st;
  shape_time : 0 <= timeLeft st <= 60;
  shape_over : status st = gameover -> timeLeft st = 0;
  shape_idle : status st = idle -> st = initialState;
  shape_colors :
    status st <> idle -> round_colors (level st) (baseColor st) (diffColor st);
  shape_last : last_shape (level st) (score st) (lastDiffInfo st)
}.

(** ** The grid that stays on screen *)

(** The playing grid is a child of [<AnimatePresence mode="wait">] with an
    [exit] animation: when the status leaves playing, the grid stays
    mounted, as its last render drew it and with the [onClick] handlers of
    that render, until the animation is over. A screen is the component
    together with the state of the render the grid on screen belongs to, if
    there is a grid. *)
Record Screen := mkScreen { world : World; grid : option GameState }.

(** The grid after a render: drawn from the committed state while playing,
    left as it is otherwise. *)
Definition paint (shown : option GameState) (w' : World)
  : option GameState :=
  if Status_eqb (status (state w')) playing then Some (state w') else shown.

Definition show (shown : option GameState) (w' : World) : Screen :=
  mkScreen w' (paint shown w').

(** What happens on a screen: the start button, a click on a block of the
    grid on screen, the timer, the end of the exit animation. *)
Inductive Action :=
| PressStart
| ClickBlock (index : Z)
| TimerFires
| GridGone.

Definition act (sc : Screen) (a : Action) : Screen :=
  match a with
  | PressStart => show (grid sc) (start (world sc))
  | ClickBlock index =>
      match grid sc with
      | Some closure => show (grid sc) (click closure (world sc) index)
      | None => sc
      end
  | TimerFires => show (grid sc) (tick (world sc))
  | GridGone =>
      if Status_eqb (status (state (world sc))) playing then sc
      else mkScreen (world sc) None
  end.

Definition play (acts : list Action) (sc : Screen) : Screen :=
  fold_left act acts sc.

(** The mounted component: idle, no grid. *)
Definition mount (g : Rng) : Screen := mkScreen (init g) None.

Inductive on_screen : Screen -> Prop :=
| on_screen_mount g : Rng_ok g -> on_screen (mount g)
| on_screen_act sc a : on_screen sc -> on_screen (act sc a).

(** A session that has run out of time, its last grid still on screen; one
    that ended at level 3; one that ended with a score of 20. *)
Definition ended_screen : Screen :=
  play (PressStart :: repeat TimerFires 60) (mount quarter).

Definition ended_at_level3 : Screen :=
  play (PressStart :: ClickBlock 1 :: ClickBlock 1 :: repeat TimerFires 60)
    (mount quarter).

Definition ended_at_20 : Screen :=
  play (PressStart :: repeat (ClickBlock 1) 2 ++ repeat (ClickBlock 2) 4
          ++ repeat (ClickBlock 4) 6 ++ repeat (ClickBlock 6) 8
          ++ repeat TimerFires 60)
    (mount quarter).

(** What the last comparison holds on a screen: after the end of the
    session its two colours may also be those of the current level. *)
Definition last_late (st : GameState) : Prop :=
  match lastDiffInfo st with
  | None => score st = 0
  | Some d =>
      1 <= score st /\ delta d = delta_of (level st) /\
      exists b c, base d = colorToCSS b /\ diff d = colorToCSS c /\
                  (round_colors (level st - 1) b c \/
                   (status st = gameover /\ round_colors (level st) b c))
  end.

(** The grid on screen and the committed state: while playing the grid is
    drawn from the committed state; after the end it is the grid of a
    playing render, and a click on its odd block has been counted or not. *)
Definition grid_fits (shown : option GameState) (st : GameState) : Prop :=
  match shown with
  | None => status st <> playing
  | Some closure =>
      status closure = playing /\ 1 <= level closure /\
      ((status st = playing /\ closure = st) \/
       (status st = gameover /\ timeLeft st = 0 /\
        ((level st = level closure /\ score st = score closure) \/
         (level st = level closure + 1 /\ score st = score closure + 1))))
  end.

(** The invariant of the screen. *)
Record OnScreen (sc : Screen) : Prop := mkOnScreen {
  os_inv : Inv (world sc);
  os_score : score (state (world sc)) = level (state (world sc)) - 1;
  os_colors :
    status (state (world sc)) <> idle ->
    round_colors (level (state (world sc))) (baseColor (state (world sc)))
      (diffColor (state (world sc)));
  os_last : last_late (state (world sc));
  os_grid : grid_fits (grid sc) (state (world sc))
}.

(** * Properties *)

(** ** Concrete runs *)

Example generateColors_3 :
  fst (generateColors 3 (constRng (1 # 4))) =
  mkRound (mkColor 90 50 40) (mkColor 90 50 25) 2 3 15.
Proof. reflexivity. Qed.

Example colorToCSS_ex :
  colorToCSS (mkColor 90 50 25) = "hsl(90, 50%, 25%)"%string.
Proof. reflexivity. Qed.

Example run_to_level3 :
  state at_level3 =
  mkGameState playing 2 60 3 3 (mkColor 90 50 40) (mkColor 90 50 25) 2
    (Some (mkDiffInfo "hsl(90, 50%, 40%)" "hsl(90, 50%, 25%)" 15)).
Proof. reflexivity. Qed.

(** ** Arithmetic of the generator *)

(** [Math.floor(level / 4)] is the integer quotient. *)
Lemma floor_quarter (L : Z) : Qfloor (inject_Z L / 4) = L / 4.
Proof.
  unfold Qdiv, Qmult, Qinv, inject_Z, Qfloor; simpl.
  now rewrite Z.mul_1_r.
Qed.

Lemma delta_of_spec (L : Z) : delta_of L = Z.max 1 (15 - L / 4).
Proof. unfold delta_of, MIN_DELTA. now rewrite floor_quarter. Qed.

Lemma delta_of_bounds (L : Z) : 1 <= L -> 1 <= delta_of L <= 15.
Proof.
  intros HL. rewrite delta_of_spec.
  assert (0 <= L / 4) by (apply Z.div_pos; lia). lia.
Qed.

Lemma gridSize_of_table (L : Z) : gridSize_of L = gridSize_table L.
Proof.
  unfold gridSize_of, gridSize_table.
  repeat match goal with
         | |- context [?a >? ?b] => destruct (Z.gtb_spec a b)
         | |- context [?a <=? ?b] => destruct (Z.leb_spec a b)
         end; lia.
Qed.

Lemma gridSize_of_range (L : Z) : 2 <= gridSize_of L <= 8.
Proof.
  rewrite gridSize_of_table. unfold gridSize_table.
  repeat match goal with
         | |- context [?a <=? ?b] => destruct (Z.leb_spec a b)
         end; lia.
Qed.

(** The floor of a number of [[0,1)] scaled by [n] is one of [0 .. n-1]. *)
Lemma floor_scaled_range (r : Q) (n : Z) :
  (0 <= r)%Q -> (r < 1)%Q -> 0 < n -> 0 <= Qfloor (r * inject_Z n) < n.
Proof.
  intros H0 H1 Hn.
  assert (Hq : (0 < inject_Z n)%Q)
    by (change (inject_Z 0 < inject_Z n)%Q; rewrite <- Zlt_Qlt; exact Hn).
  split.
  - rewrite <- (Qfloor_Z 0). apply Qfloor_resp_le.
    apply Qmult_le_0_compat; [exact H0 | apply Qlt_le_weak; exact Hq].
  - rewrite Zlt_Qlt.
    apply Qle_lt_trans with (r * inject_Z n)%Q; [apply Qfloor_le |].
    rewrite <- (Qmult_1_l (inject_Z n)) at 2.
    apply Qmult_lt_compat_r; assumption.
Qed.

Section Generator.

Variable g : Rng.

(** Running a computation moves the generator along its sequence and
    never changes the sequence. *)
Lemma Math_random_draws : draws (snd (Math_random g)) = draws g.
Proof. reflexivity. Qed.

Lemma random_below_draws n : draws (snd (random_below n g)) = draws g.
Proof. reflexivity. Qed.

Lemma generateColors_draws L : draws (snd (generateColors L g)) = draws g.
Proof. reflexivity. Qed.

Lemma generateColors_pos L : pos (snd (generateColors L g)) = (pos g + 5)%nat.
Proof. cbn. lia. Qed.

(** The round in terms of the five numbers consumed. *)
Lemma generateColors_eq L :
  fst (generateColors L g) =
  mkRound
    (mkColor (Qfloor (nth_draw g 0 * inject_Z 360))
       (Qfloor (nth_draw g 1 * inject_Z 40) + 40)
       (Qfloor (nth_draw g 2 * inject_Z 40) + 30))
    (mkColor (Qfloor (nth_draw g 0 * inject_Z 360))
       (Qfloor (nth_draw g 1 * inject_Z 40) + 40)
       (if above_half (nth_draw g 3)
        then Qfloor (nth_draw g 2 * inject_Z 40) + 30 + delta_of L
        else Qfloor (nth_draw g 2 * inject_Z 40) + 30 - delta_of L))
    (Qfloor (nth_draw g 4 * inject_Z (gridSize_of L * gridSize_of L)))
    (gridSize_of L) (delta_of L).
Proof.
  unfold nth_draw. rewrite Nat.add_0_r.
  replace (pos g + 1)%nat with (S (pos g)) by lia.
  replace (pos g + 2)%nat with (S (S (pos g))) by lia.
  replace (pos g + 3)%nat with (S (S (S (pos g)))) by lia.
  replace (pos g + 4)%nat with (S (S (S (S (pos g))))) by lia.
  reflexivity.
Qed.

Hypothesis g_ok : Rng_ok g.

Lemma generateColors_ok L : Rng_ok (snd (generateColors L g)).
Proof. intros n. rewrite generateColors_draws. apply g_ok. Qed.

Lemma generateColors_diffIndex L :
  let r := fst (generateColors L g) in
  0 <= r_diffIndex r < r_gridSize r * r_gridSize r.
Proof.
  cbv zeta. rewrite generateColors_eq. cbn [r_diffIndex r_gridSize].
  pose proof (gridSize_of_range L) as Hs.
  apply floor_scaled_range; try apply g_ok. nia.
Qed.

Lemma generateColors_base_l L :
  30 <= l (r_baseColor (fst (generateColors L g))) <= 69.
Proof.
  rewrite generateColors_eq. cbn [r_baseColor l].
  pose proof (floor_scaled_range (nth_draw g 2) 40
                (proj1 (g_ok _)) (proj2 (g_ok _))).
  lia.
Qed.

Lemma generateColors_diff_l L :
  let r := fst (generateColors L g) in
  l (r_diffColor r) = l (r_baseColor r) + r_delta r \/
  l (r_diffColor r) = l (r_baseColor r) - r_delta r.
Proof.
  cbv zeta. rewrite generateColors_eq. cbn [r_baseColor r_diffColor r_delta l].
  destruct (above_half _); [left | right]; reflexivity.
Qed.

End Generator.

(** ** The three events, case by case *)

Lemma Status_eqb_eq (a b : Status) : Status_eqb a b = true <-> a = b.
Proof. destruct a, b; simpl; split; congruence. Qed.

Lemma Status_eqb_refl (a : Status) : Status_eqb a a = true.
Proof. now destruct a. Qed.

(** A commit that keeps the status keeps the interval as the event left it. *)
Lemma commit_same_status w st' t g' :
  status st' = status (state w) -> commit w st' t g' = mkWorld st' t g'.
Proof. intros E. unfold commit. now rewrite E, Status_eqb_refl. Qed.

Lemma start_eq (w : World) :
  start w =
  commit w (fst (startGame (rng w))) (ticking w) (snd (startGame (rng w))).
Proof. reflexivity. Qed.

Lemma startGame_eq (g : Rng) :
  fst (startGame g) =
  let r := fst (generateColors 1 g) in
  mkGameState playing 0 60 1 (r_gridSize r) (r_baseColor r) (r_diffColor r)
    (r_diffIndex r) None.
Proof. reflexivity. Qed.

Lemma startGame_rng (g : Rng) :
  snd (startGame g) = snd (generateColors 1 g).
Proof. reflexivity. Qed.

Lemma select_not_playing (w : World) (index : Z) :
  status (state w) <> playing -> select w index = w.
Proof.
  intros Hs. destruct w as [st t g]. unfold select, handleBlockClick.
  cbn [state rng ticking] in *.
  destruct (status st) eqn:E; try congruence; cbn;
    apply commit_same_status; reflexivity.
Qed.

Lemma select_wrong (w : World) (index : Z) :
  status (state w) = playing -> index <> diffIndex (state w) ->
  select w index = mkWorld (penalty (state w)) (ticking w) (rng w).
Proof.
  intros Hs Hi. unfold select, handleBlockClick. rewrite Hs. cbn [Status_eqb negb].
  destruct (Z.eqb_spec index (diffIndex (state w))) as [|_]; [contradiction|].
  cbn. apply commit_same_status. reflexivity.
Qed.

Lemma select_correct (w : World) :
  status (state w) = playing ->
  select w (diffIndex (state w)) =
  let r := fst (generateColors (level (state w) + 1) (rng w)) in
  mkWorld
    (mkGameState playing (score (state w) + 1) (timeLeft (state w))
       (level (state w) + 1) (r_gridSize r) (r_baseColor r) (r_diffColor r)
       (r_diffIndex r)
       (Some (mkDiffInfo (colorToCSS (baseColor (state w)))
                (colorToCSS (diffColor (state w))) (r_delta r))))
    (ticking w)
    (snd (generateColors (level (state w) + 1) (rng w))).
Proof.
  intros Hs. unfold select, handleBlockClick. rewrite Hs, Z.eqb_refl.
  cbn [Status_eqb negb]. cbv zeta.
  change (let (update, g') := nextLevel (level (state w)) (score (state w)) (rng w) in
          commit w (update (state w)) (ticking w) g')
    with (commit w
            (fst (nextLevel (level (state w)) (score (state w)) (rng w)) (state w))
            (ticking w)
            (snd (nextLevel (level (state w)) (score (state w)) (rng w)))).
  rewrite commit_same_status by (cbn; reflexivity).
  rewrite <- Hs. reflexivity.
Qed.

Lemma tick_stopped (w : World) : ticking w = false -> tick w = w.
Proof. intros Ht. unfold tick. now rewrite Ht. Qed.

Lemma tick_down (w : World) :
  ticking w = true -> 2 <= timeLeft (state w) ->
  tick w =
  mkWorld
    (mkGameState (status (state w)) (score (state w)) (timeLeft (state w) - 1)
       (level (state w)) (gridSize (state w)) (baseColor (state w))
       (diffColor (state w)) (diffIndex (state w)) (lastDiffInfo (state w)))
    true (rng w).
Proof.
  intros Ht Hn. unfold tick, timerCallback. rewrite Ht.
  destruct (Z.leb_spec (timeLeft (state w)) 1); [lia|].
  apply commit_same_status. reflexivity.
Qed.

Lemma tick_out (w : World) :
  ticking w = true -> status (state w) = playing -> timeLeft (state w) <= 1 ->
  tick w =
  mkWorld
    (mkGameState gameover (score (state w)) 0
       (level (state w)) (gridSize (state w)) (baseColor (state w))
       (diffColor (state w)) (diffIndex (state w)) (lastDiffInfo (state w)))
    false (rng w).
Proof.
  intros Ht Hs Hn. unfold tick, timerCallback. rewrite Ht.
  destruct (Z.leb_spec (timeLeft (state w)) 1); [|lia].
  unfold commit. rewrite Hs. reflexivity.
Qed.

(** ** What every reachable state satisfies *)

Lemma Inv_init (g : Rng) : Rng_ok g -> Inv (init g).
Proof.
  intros Hg. constructor; try exact Hg; try reflexivity; vm_compute; congruence.
Qed.

Lemma Inv_start (w : World) : Inv w -> Inv (start w).
Proof.
  intros [Ht Hn Hl Hs Hg]. rewrite start_eq.
  constructor; cbn [state ticking rng commit]; rewrite ?startGame_eq, ?startGame_rng;
    cbn [status timeLeft level score]; try lia.
  - destruct (status (state w)); cbn in *; auto.
  - now apply generateColors_ok.
Qed.

Lemma Inv_select (w : World) (index : Z) : Inv w -> Inv (select w index).
Proof.
  intros I. destruct (status (state w)) eqn:Es.
  1, 3: rewrite select_not_playing by congruence; exact I.
  destruct I as [Ht Hn Hl Hs Hg].
  destruct (Z.eq_dec index (diffIndex (state w))) as [->|Hi].
  - rewrite select_correct by exact Es.
    constructor; cbv zeta; cbn [state ticking rng status timeLeft level score];
      try lia.
    + now rewrite Ht, Es.
    + now apply generateColors_ok.
  - rewrite select_wrong by assumption.
    constructor; cbn; try lia; auto.
Qed.

Lemma Inv_tick (w : World) : Inv w -> Inv (tick w).
Proof.
  intros I. destruct (ticking w) eqn:Et.
  2: now rewrite tick_stopped.
  destruct I as [Ht Hn Hl Hs Hg].
  assert (Es : status (state w) = playing)
    by (apply Status_eqb_eq; congruence).
  destruct (Z_le_gt_dec (timeLeft (state w)) 1).
  - rewrite tick_out by assumption. constructor; cbn; try lia; auto.
  - rewrite tick_down by (auto; lia).
    constructor; cbn; try lia; auto. now rewrite Es.
Qed.

Lemma reachable_Inv (w : World) : reachable w -> Inv w.
Proof.
  induction 1 as [g Hg | w e _ IH].
  - now apply Inv_init.
  - destruct e; cbn [step];
      [apply Inv_start | apply Inv_select | apply Inv_tick]; exact IH.
Qed.

Lemma reachable_run (es : list Event) (w : World) :
  reachable w -> reachable (run es w).
Proof.
  revert w. induction es as [|e es IH]; intros w Hw; cbn.
  - exact Hw.
  - apply IH. now apply reachable_step.
Qed.

Lemma constRng_ok (q : Q) : (0 <= q)%Q -> (q < 1)%Q -> Rng_ok (constRng q).
Proof. intros H0 H1 n. split; assumption. Qed.

Lemma quarter_ok : Rng_ok quarter.
Proof. apply constRng_ok; reflexivity || (unfold Qle; simpl; lia). Qed.

(** ** The round generator *)

(** C1. For every level [L >= 1] the generated round has
    [delta = max(1, 15 - floor(L/4))], which is at least 1: the difference
    never reaches zero. *)
Theorem generateColors_delta (L : Z) (g : Rng) :
  1 <= L ->
  r_delta (fst (generateColors L g)) = Z.max 1 (15 - L / 4) /\
  1 <= r_delta (fst (generateColors L g)).
Proof.
  intros HL. rewrite generateColors_eq. cbn [r_delta].
  split; [apply delta_of_spec | apply delta_of_bounds, HL].
Qed.

Lemma generateColors_delta_witness :
  1 <= 8 /\
  r_delta (fst (generateColors 8 quarter)) = Z.max 1 (15 - 8 / 4) /\
  1 <= r_delta (fst (generateColors 8 quarter)).
Proof. split; [lia | apply (generateColors_delta 8 quarter); lia]. Defined.

(** C2. For every level [L >= 1] the grid size of the generated round
    follows the breakpoint table: 1-2 give 2, 3-6 give 3, 7-12 give 4,
    13-20 give 5, 21-30 give 6, 31-45 give 7, 46 and above give 8. *)
Theorem generateColors_gridSize (L : Z) (g : Rng) :
  1 <= L ->
  let n := r_gridSize (fst (generateColors L g)) in
  n = gridSize_table L /\
  (L <= 2 -> n = 2) /\
  (3 <= L <= 6 -> n = 3) /\
  (7 <= L <= 12 -> n = 4) /\
  (13 <= L <= 20 -> n = 5) /\
  (21 <= L <= 30 -> n = 6) /\
  (31 <= L <= 45 -> n = 7) /\
  (46 <= L -> n = 8).
Proof.
  intros HL n. subst n. rewrite generateColors_eq. cbn [r_gridSize].
  rewrite gridSize_of_table. split; [reflexivity|].
  unfold gridSize_table.
  repeat match goal with
         | |- context [?a <=? ?b] => destruct (Z.leb_spec a b)
         end; repeat split; intros; lia.
Qed.

Lemma generateColors_gridSize_witness :
  1 <= 48 /\ r_gridSize (fst (generateColors 48 quarter)) = 8.
Proof.
  split; [lia|].
  apply (generateColors_gridSize 48 quarter); lia.
Defined.

(** C10. For every level [L >= 1] and every random draw, the base lightness
    is in [30, 69], delta is at most 15, and so the lightness of the odd
    colour is in [15, 84], inside [0, 100] without any clamp. *)
Theorem generateColors_lightness (L : Z) (g : Rng) :
  1 <= L -> Rng_ok g ->
  let r := fst (generateColors L g) in
  30 <= l (r_baseColor r) <= 69 /\
  1 <= r_delta r <= 15 /\
  15 <= l (r_diffColor r) <= 84 /\
  0 <= l (r_diffColor r) <= 100.
Proof.
  intros HL Hg r.
  pose proof (generateColors_base_l g Hg L) as Hb.
  pose proof (generateColors_diff_l g L) as Hd. cbv zeta in Hd.
  assert (Hdelta : 1 <= r_delta r <= 15).
  { subst r. rewrite generateColors_eq. cbn [r_delta].
    now apply delta_of_bounds. }
  fold r in Hb, Hd. lia.
Qed.

Lemma generateColors_lightness_witness :
  1 <= 3 /\ Rng_ok quarter /\
  let r := fst (generateColors 3 quarter) in
  30 <= l (r_baseColor r) <= 69 /\
  1 <= r_delta r <= 15 /\
  15 <= l (r_diffColor r) <= 84 /\
  0 <= l (r_diffColor r) <= 100.
Proof.
  split; [lia|]. split; [exact quarter_ok|].
  apply (generateColors_lightness 3 quarter); [lia | exact quarter_ok].
Defined.

(** ** The session *)

Lemma reachable_quarter (es : list Event) : reachable (run es (init quarter)).
Proof. apply reachable_run, reachable_init, quarter_ok. Qed.

(** C6. While playing, selecting the odd block adds exactly 1 to the score
    and to the level, keeps the session playing, and replaces the round by
    the one generated for the new level, whose [diffIndex] is a cell of the
    new grid. *)
Theorem select_correct_advances (w : World) (index : Z) :
  Rng_ok (rng w) -> status (state w) = playing ->
  index = diffIndex (state w) ->
  let w' := select w index in
  let r := fst (generateColors (level (state w) + 1) (rng w)) in
  score (state w') = score (state w) + 1 /\
  level (state w') = level (state w) + 1 /\
  status (state w') = playing /\
  timeLeft (state w') = timeLeft (state w) /\
  gridSize (state w') = r_gridSize r /\
  baseColor (state w') = r_baseColor r /\
  diffColor (state w') = r_diffColor r /\
  diffIndex (state w') = r_diffIndex r /\
  0 <= diffIndex (state w') < gridSize (state w') * gridSize (state w').
Proof.
  intros Hg Hs -> w' r. subst w'. rewrite select_correct by exact Hs.
  cbv zeta. cbn [state score level status timeLeft gridSize baseColor diffColor diffIndex].
  fold r. repeat split; try reflexivity;
    apply (generateColors_diffIndex (rng w) Hg (level (state w) + 1)).
Qed.

Lemma select_correct_advances_witness :
  Rng_ok (rng started) /\ status (state started) = playing /\
  1 = diffIndex (state started) /\
  score (state (select started 1)) = score (state started) + 1 /\
  level (state (select started 1)) = level (state started) + 1 /\
  status (state (select started 1)) = playing /\
  0 <= diffIndex (state (select started 1))
    < gridSize (state (select started 1)) * gridSize (state (select started 1)).
Proof.
  assert (Hg : Rng_ok (rng started))
    by (apply inv_rng, reachable_Inv, reachable_quarter).
  split; [exact Hg|]. split; [reflexivity|]. split; [reflexivity|].
  pose proof (select_correct_advances started 1 Hg eq_refl eq_refl) as H.
  cbv zeta in H. intuition.
Defined.

(** C7. While playing, selecting any other block sets [timeLeft] to
    [max(0, timeLeft - 3)] and changes nothing else: score, level, grid
    size, both colours, the odd index and the last comparison stay. *)
Theorem select_wrong_penalty (w : World) (index : Z) :
  status (state w) = playing -> index <> diffIndex (state w) ->
  let w' := select w index in
  timeLeft (state w') = Z.max 0 (timeLeft (state w) - 3) /\
  status (state w') = status (state w) /\
  score (state w') = score (state w) /\
  level (state w') = level (state w) /\
  gridSize (state w') = gridSize (state w) /\
  baseColor (state w') = baseColor (state w) /\
  diffColor (state w') = diffColor (state w) /\
  diffIndex (state w') = diffIndex (state w) /\
  lastDiffInfo (state w') = lastDiffInfo (state w) /\
  ticking w' = ticking w /\ rng w' = rng w.
Proof.
  intros Hs Hi w'. subst w'. rewrite select_wrong by assumption.
  cbn. repeat split.
Qed.

Lemma select_wrong_penalty_witness :
  status (state two_left) = playing /\ 0 <> diffIndex (state two_left) /\
  timeLeft (state two_left) = 2 /\
  timeLeft (state (select two_left 0)) = Z.max 0 (timeLeft (state two_left) - 3) /\
  score (state (select two_left 0)) = score (state two_left) /\
  level (state (select two_left 0)) = level (state two_left).
Proof.
  assert (Hs : status (state two_left) = playing) by reflexivity.
  assert (Hi : 0 <> diffIndex (state two_left)) by (vm_compute; congruence).
  split; [exact Hs|]. split; [exact Hi|]. split; [reflexivity|].
  pose proof (select_wrong_penalty two_left 0 Hs Hi) as H.
  cbv zeta in H. intuition.
Defined.

(** C8. [start()] from any state gives score 0, 60 seconds, level 1, status
    playing, the round generated for level 1 and no last comparison; the
    state it gives does not depend on the state it is called in, so it is
    the same from ended as from idle, and the countdown runs afterwards. *)
Theorem start_resets (st st' : GameState) (t t' : bool) (g : Rng) :
  let w' := start (mkWorld st t g) in
  let r := fst (generateColors 1 g) in
  state w' =
    mkGameState playing 0 60 1 (r_gridSize r) (r_baseColor r) (r_diffColor r)
      (r_diffIndex r) None /\
  status (state w') = playing /\ score (state w') = 0 /\
  timeLeft (state w') = 60 /\ level (state w') = 1 /\
  lastDiffInfo (state w') = None /\
  state (start (mkWorld st' t' g)) = state w' /\
  rng (start (mkWorld st' t' g)) = rng w' /\
  ticking w' = (if Status_eqb (status st) playing then t else true).
Proof.
  cbv zeta. rewrite !start_eq. cbn [state rng ticking commit].
  rewrite startGame_eq. cbv zeta. cbn [status score timeLeft level lastDiffInfo].
  repeat split.
Qed.

Lemma not_playing_stopped (w : World) :
  reachable w -> status (state w) <> playing -> ticking w = false.
Proof.
  intros Hw Hs. rewrite (inv_ticking w (reachable_Inv w Hw)).
  destruct (status (state w)); congruence || reflexivity.
Qed.

Lemma playing_ticking (w : World) :
  reachable w -> status (state w) = playing -> ticking w = true.
Proof.
  intros Hw Hs. rewrite (inv_ticking w (reachable_Inv w Hw)), Hs. reflexivity.
Qed.

(** [k] ticks with more than [k] seconds left take [k] seconds off and
    leave the countdown running. *)
Lemma iter_tick (k : nat) (w : World) :
  ticking w = true -> Z.of_nat k < timeLeft (state w) ->
  Nat.iter k tick w = mkWorld (elapse (Z.of_nat k) (state w)) true (rng w).
Proof.
  intros Ht. induction k as [|k IH]; intros Hk.
  - cbn. destruct w as [[] ? ?]. cbn in *. subst. unfold elapse. cbn.
    now rewrite Z.sub_0_r.
  - change (Nat.iter (S k) tick w) with (tick (Nat.iter k tick w)).
    rewrite IH by lia.
    rewrite tick_down by (cbn; lia).
    cbn. unfold elapse. do 2 f_equal. lia.
Qed.

(** C3. While playing, a tick with at least 2 seconds left takes exactly
    one second off and keeps the session playing; a tick with at most 1
    second left sets [timeLeft] to 0 and ends the session; [timeLeft] is
    never negative after a tick. From a fresh start, 59 ticks leave 1 second
    with the session playing, and the 60th ends it at 0. *)
Theorem tick_countdown (w : World) :
  reachable w ->
  (status (state w) = playing ->
   (2 <= timeLeft (state w) ->
    timeLeft (state (tick w)) = timeLeft (state w) - 1 /\
    status (state (tick w)) = playing) /\
   (timeLeft (state w) <= 1 ->
    timeLeft (state (tick w)) = 0 /\ status (state (tick w)) = gameover)) /\
  0 <= timeLeft (state (tick w)) /\
  (let w0 := start w in
   timeLeft (state w0) = 60 /\ status (state w0) = playing /\
   timeLeft (state (Nat.iter 59 tick w0)) = 1 /\
   status (state (Nat.iter 59 tick w0)) = playing /\
   timeLeft (state (tick (Nat.iter 59 tick w0))) = 0 /\
   status (state (tick (Nat.iter 59 tick w0))) = gameover).
Proof.
  intros Hw. split; [|split].
  - intros Hs. pose proof (playing_ticking w Hw Hs) as Ht. split; intros Hn.
    + rewrite tick_down by assumption. cbn. auto.
    + rewrite tick_out by assumption. cbn. auto.
  - apply inv_timeLeft, reachable_Inv. apply (reachable_step w Tick Hw).
  - cbv zeta.
    pose proof (reachable_step w Start Hw) as Hw0. cbn [step] in Hw0.
    assert (Hs0 : status (state (start w)) = playing)
      by (rewrite start_eq; reflexivity).
    assert (Hn0 : timeLeft (state (start w)) = 60)
      by (rewrite start_eq; reflexivity).
    revert Hw0 Hs0 Hn0. generalize (start w). intros w0 Hw0 Hs0 Hn0.
    pose proof (playing_ticking w0 Hw0 Hs0) as Ht0.
    assert (E59 : Nat.iter 59 tick w0
                  = mkWorld (elapse 59 (state w0)) true (rng w0))
      by (apply (iter_tick 59 w0 Ht0); rewrite Hn0; reflexivity).
    rewrite E59.
    rewrite tick_out;
      cbn [state ticking elapse status timeLeft]; rewrite ?Hn0, ?Hs0;
      repeat split; lia.
Qed.

Lemma tick_countdown_witness :
  reachable started /\ status (state started) = playing /\
  2 <= timeLeft (state started) /\
  timeLeft (state (tick started)) = timeLeft (state started) - 1 /\
  status (state (tick started)) = playing.
Proof.
  assert (Hw : reachable started) by apply reachable_quarter.
  split; [exact Hw|]. split; [reflexivity|].
  split; [vm_compute; congruence|].
  apply (proj1 (tick_countdown started Hw)); [reflexivity|].
  vm_compute; congruence.
Defined.

(** C5, as the code has it. In every reachable state [timeLeft >= 0]. A
    tick that brings [timeLeft] to 0 ends the session at that moment. A
    wrong selection with at most 3 seconds left (2, say) clamps [timeLeft]
    to 0 and leaves the session playing; it is the next tick that ends it,
    still at 0. *)
Theorem timeLeft_clamp (w : World) (index : Z) :
  reachable w ->
  0 <= timeLeft (state w) /\
  (status (state w) = playing -> timeLeft (state (tick w)) = 0 ->
   status (state (tick w)) = gameover) /\
  (status (state w) = playing -> index <> diffIndex (state w) ->
   timeLeft (state w) <= 3 ->
   timeLeft (state (select w index)) = 0 /\
   status (state (select w index)) = playing /\
   timeLeft (state (tick (select w index))) = 0 /\
   status (state (tick (select w index))) = gameover).
Proof.
  intros Hw. pose proof (reachable_Inv w Hw) as I.
  split; [apply I|]. split.
  - intros Hs H0. pose proof (playing_ticking w Hw Hs) as Ht.
    destruct (Z_le_gt_dec (timeLeft (state w)) 1).
    + rewrite tick_out by assumption. reflexivity.
    + rewrite tick_down in H0 by (auto; lia). cbn in H0. lia.
  - intros Hs Hi Hn. pose proof (playing_ticking w Hw Hs) as Ht.
    pose proof (inv_timeLeft w I) as Hpos.
    rewrite select_wrong by assumption.
    rewrite tick_out by (cbn; auto; lia).
    cbn. repeat split; auto; lia.
Qed.

Lemma timeLeft_clamp_witness :
  reachable two_left /\ status (state two_left) = playing /\
  0 <> diffIndex (state two_left) /\ timeLeft (state two_left) <= 3 /\
  timeLeft (state (select two_left 0)) = 0 /\
  status (state (select two_left 0)) = playing /\
  timeLeft (state (tick (select two_left 0))) = 0 /\
  status (state (tick (select two_left 0))) = gameover.
Proof.
  assert (Hw : reachable two_left) by apply reachable_quarter.
  assert (Hi : 0 <> diffIndex (state two_left)) by (vm_compute; congruence).
  assert (Hn : timeLeft (state two_left) <= 3) by (vm_compute; congruence).
  split; [exact Hw|]. split; [reflexivity|]. split; [exact Hi|].
  split; [exact Hn|].
  apply (proj2 (proj2 (timeLeft_clamp two_left 0 Hw)) eq_refl Hi Hn).
Defined.

(** C5 as stated fails: two seconds before the end of a session, a wrong
    selection leaves [timeLeft = 0] in a session that is still playing. *)
Lemma clamp_does_not_end :
  reachable two_left /\ status (state two_left) = playing /\
  timeLeft (state two_left) = 2 /\ 0 <> diffIndex (state two_left) /\
  reachable (select two_left 0) /\
  timeLeft (state (select two_left 0)) = 0 /\
  status (state (select two_left 0)) = playing /\
  ~ (forall w index,
        reachable w -> status (state w) = playing ->
        index <> diffIndex (state w) -> timeLeft (state w) = 2 ->
        timeLeft (state (select w index)) = 0 /\
        status (state (select w index)) = gameover).
Proof.
  assert (Hw : reachable two_left) by apply reachable_quarter.
  assert (Hi : 0 <> diffIndex (state two_left)) by (vm_compute; congruence).
  repeat split; try assumption; try reflexivity.
  - apply (reachable_step two_left (Select 0) Hw).
  - intros H. destruct (H two_left 0 Hw eq_refl Hi eq_refl) as [_ Hs].
    vm_compute in Hs. discriminate Hs.
Qed.

(** ** The last comparison *)

(** The last comparison after a correct selection: the colours of the round
    just solved, with the delta of the round just generated. *)
Lemma lastDiffInfo_after_correct (w : World) :
  status (state w) = playing ->
  lastDiffInfo (state (select w (diffIndex (state w)))) =
  Some (mkDiffInfo (colorToCSS (baseColor (state w)))
          (colorToCSS (diffColor (state w)))
          (delta_of (level (state w) + 1))).
Proof.
  intros Hs. rewrite select_correct by exact Hs. cbv zeta.
  cbn [state lastDiffInfo]. now rewrite generateColors_eq.
Qed.

(** No other event sets it: a wrong selection and a tick keep it, [start()]
    removes it. *)
Lemma lastDiffInfo_kept (w : World) (index : Z) :
  (status (state w) <> playing \/ index <> diffIndex (state w) ->
   lastDiffInfo (state (select w index)) = lastDiffInfo (state w)) /\
  lastDiffInfo (state (tick w)) = lastDiffInfo (state w) /\
  lastDiffInfo (state (start w)) = None.
Proof.
  split; [|split].
  - intros [Hs|Hi].
    + now rewrite select_not_playing.
    + destruct (status (state w)) eqn:Es.
      1, 3: rewrite select_not_playing by congruence; reflexivity.
      now rewrite select_wrong.
  - unfold tick, timerCallback.
    destruct (ticking w); [|reflexivity].
    destruct (timeLeft (state w) <=? 1); reflexivity.
  - reflexivity.
Qed.

(** C4, on a concrete session. At level 3 the two colours on screen are 15
    points of lightness apart. After the correct selection the last
    comparison holds these two colours, and 14 as its delta: the delta of
    the level-4 round, not of the round the colours come from. *)
Theorem lastDiffInfo_at_level3 :
  status (state at_level3) = playing /\ level (state at_level3) = 3 /\
  diffIndex (state at_level3) = 2 /\
  baseColor (state at_level3) = mkColor 90 50 40 /\
  diffColor (state at_level3) = mkColor 90 50 25 /\
  delta_of 3 = 15 /\
  lastDiffInfo (state (select at_level3 2)) =
    Some (mkDiffInfo "hsl(90, 50%, 40%)" "hsl(90, 50%, 25%)" 14).
Proof. repeat split. Qed.

(** * Further properties *)

(** ** The difficulty curve *)

Lemma delta_of_min (L : Z) : 1 <= delta_of L.
Proof. rewrite delta_of_spec. lia. Qed.

Lemma delta_of_antitone (L L' : Z) : L <= L' -> delta_of L' <= delta_of L.
Proof.
  intros HL. rewrite !delta_of_spec.
  assert (L / 4 <= L' / 4) by (apply Z.div_le_mono; lia). lia.
Qed.

Lemma gridSize_of_monotone (L L' : Z) :
  L <= L' -> gridSize_of L <= gridSize_of L'.
Proof.
  intros HL. rewrite !gridSize_of_table. unfold gridSize_table.
  repeat match goal with
         | |- context [?a <=? ?b] => destruct (Z.leb_spec a b)
         end; lia.
Qed.

Lemma generateColors_round_colors (g : Rng) (L : Z) :
  Rng_ok g ->
  round_colors L (r_baseColor (fst (generateColors L g)))
    (r_diffColor (fst (generateColors L g))).
Proof.
  intros Hg. pose proof (generateColors_base_l g Hg L) as Hl.
  pose proof (generateColors_diff_l g L) as Hd. cbv zeta in Hd.
  revert Hl Hd. rewrite generateColors_eq.
  cbn [r_baseColor r_diffColor r_delta h s l]. intros Hl Hd.
  pose proof (floor_scaled_range (nth_draw g 0) 360
                (proj1 (Hg _)) (proj2 (Hg _))).
  pose proof (floor_scaled_range (nth_draw g 1) 40
                (proj1 (Hg _)) (proj2 (Hg _))).
  constructor; cbn [h s l]; try reflexivity; try lia.
Qed.

Lemma round_colors_differ (L : Z) (b d : Color) :
  round_colors L b d -> d <> b /\ Z.abs (l d - l b) = delta_of L.
Proof.
  intros [_ _ Hl _ _ _]. pose proof (delta_of_min L).
  split; [intros ->|]; lia.
Qed.

(** X1. The two colours of a generated round have the same hue, in
    [0, 360), and the same saturation, in [40, 80); their lightnesses are
    exactly [delta] apart, so the two colours are never equal, at any
    level. *)
Theorem generateColors_colors (L : Z) (g : Rng) :
  Rng_ok g ->
  let r := fst (generateColors L g) in
  0 <= h (r_baseColor r) < 360 /\ 40 <= s (r_baseColor r) < 80 /\
  h (r_diffColor r) = h (r_baseColor r) /\
  s (r_diffColor r) = s (r_baseColor r) /\
  Z.abs (l (r_diffColor r) - l (r_baseColor r)) = r_delta r /\
  r_diffColor r <> r_baseColor r.
Proof.
  intros Hg r. pose proof (generateColors_round_colors g L Hg) as Hrc.
  fold r in Hrc. destruct (round_colors_differ _ _ _ Hrc) as [Hne Habs].
  assert (Hdelta : r_delta r = delta_of L)
    by (subst r; now rewrite generateColors_eq).
  destruct Hrc. rewrite Hdelta. repeat split; auto; lia.
Qed.

Lemma generateColors_colors_witness :
  Rng_ok quarter /\
  r_diffColor (fst (generateColors 60 quarter))
  <> r_baseColor (fst (generateColors 60 quarter)).
Proof.
  split; [exact quarter_ok|].
  apply (generateColors_colors 60 quarter quarter_ok).
Defined.

(** X2. The difficulty never eases: at a higher level the lightness
    difference is not larger and the grid is not smaller, whatever the
    random numbers. *)
Theorem difficulty_monotone (L L' : Z) (g g' : Rng) :
  L <= L' ->
  r_delta (fst (generateColors L' g')) <= r_delta (fst (generateColors L g)) /\
  r_gridSize (fst (generateColors L g))
  <= r_gridSize (fst (generateColors L' g')).
Proof.
  intros HL. rewrite !generateColors_eq. cbn [r_delta r_gridSize].
  split; [now apply delta_of_antitone | now apply gridSize_of_monotone].
Qed.

Lemma difficulty_monotone_witness :
  3 <= 4 /\
  r_delta (fst (generateColors 4 quarter))
  <= r_delta (fst (generateColors 3 quarter)) /\
  r_gridSize (fst (generateColors 3 quarter))
  <= r_gridSize (fst (generateColors 4 quarter)).
Proof. split; [lia | apply (difficulty_monotone 3 4 quarter quarter); lia]. Defined.

(** X3. The difficulty stops growing at level 56: from there on every round
    has delta 1 on the 8 x 8 grid, and below 56 delta is at least 2. *)
Theorem difficulty_saturates (L : Z) (g : Rng) :
  let r := fst (generateColors L g) in
  (56 <= L -> r_delta r = 1 /\ r_gridSize r = 8) /\
  (L < 56 -> 2 <= r_delta r).
Proof.
  cbv zeta. rewrite generateColors_eq. cbn [r_delta r_gridSize].
  rewrite delta_of_spec, gridSize_of_table. split; intros HL.
  - assert (14 <= L / 4) by (apply Z.div_le_lower_bound; lia).
    unfold gridSize_table.
    destruct (Z.leb_spec 46 L); [|lia]. lia.
  - assert (L / 4 < 14) by (apply Z.div_lt_upper_bound; lia). lia.
Qed.

Lemma difficulty_saturates_witness :
  (56 <= 56 /\ r_delta (fst (generateColors 56 quarter)) = 1 /\
   r_gridSize (fst (generateColors 56 quarter)) = 8) /\
  (55 < 56 /\ 2 <= r_delta (fst (generateColors 55 quarter))).
Proof.
  split; (split; [lia|]).
  - apply (proj1 (difficulty_saturates 56 quarter)). lia.
  - apply (proj2 (difficulty_saturates 55 quarter)). lia.
Defined.

(** ** Colours as CSS text *)

Lemma number_roundtrip (n : Z) : number_ofString (number_toString n) = Some n.
Proof.
  unfold number_ofString, number_toString.
  rewrite NilZero.isi.
  - cbn [option_map]. now rewrite DecimalZ.of_to.
  - destruct n; cbn; try discriminate.
    intros [= H]. now apply Unsigned.to_uint_nonnil in H.
  - destruct n; cbn; try discriminate.
    intros [= H]. now apply Unsigned.to_uint_nonnil in H.
Qed.

Lemma number_toString_inj (n n' : Z) :
  number_toString n = number_toString n' -> n = n'.
Proof.
  intros E. pose proof (number_roundtrip n) as R.
  rewrite E, number_roundtrip in R. congruence.
Qed.

Lemma uint_chars (d : Decimal.uint) :
  all_chars num_char (NilEmpty.string_of_uint d) = true.
Proof. induction d; cbn; auto. Qed.

Lemma number_chars (n : Z) : all_chars num_char (number_toString n) = true.
Proof.
  unfold number_toString.
  destruct (Z.to_int n) as [d|d]; cbn [NilZero.string_of_int];
    [|change (all_chars num_char (NilZero.string_of_uint d) = true)];
    destruct d; try reflexivity; apply uint_chars.
Qed.

(** Two texts that stop at the first [c] are equal up to it, and after it. *)
Lemma app_sep_inj (p : ascii -> bool) (c : ascii) (a b x y : string) :
  p c = false -> all_chars p a = true -> all_chars p b = true ->
  (a ++ String c x = b ++ String c y)%string -> a = b /\ x = y.
Proof.
  intros Hc. revert b.
  induction a as [|k a IH]; intros [|k' b] Ha Hb E; cbn in *.
  - injection E as ->. auto.
  - injection E as -> _. apply andb_prop in Hb. destruct Hb. congruence.
  - injection E as -> _. apply andb_prop in Ha. destruct Ha. congruence.
  - injection E as -> E. apply andb_prop in Ha, Hb.
    destruct (IH b (proj2 Ha) (proj2 Hb) E) as [-> ->]. auto.
Qed.

Lemma colorToCSS_text_inj (c c' : Color) :
  colorToCSS c = colorToCSS c' -> c = c'.
Proof.
  destruct c as [h1 s1 l1], c' as [h2 s2 l2]. unfold colorToCSS. cbn [h s l].
  intros E. cbn [append] in E. injection E as E.
  apply (app_sep_inj num_char) in E; try apply number_chars; [|reflexivity].
  destruct E as [Eh E]. injection E as E.
  apply (app_sep_inj num_char) in E; try apply number_chars; [|reflexivity].
  destruct E as [Es E]. injection E as E.
  apply (app_sep_inj num_char) in E; try apply number_chars; [|reflexivity].
  destruct E as [El _].
  apply number_toString_inj in Eh, Es, El. congruence.
Qed.

(** X4. [colorToCSS] tells colours apart: two colours with the same CSS
    text are the same colour. *)
Theorem colorToCSS_inj (c c' : Color) :
  colorToCSS c = colorToCSS c' -> c = c'.
Proof. exact (colorToCSS_text_inj c c'). Qed.

Lemma colorToCSS_inj_witness :
  colorToCSS (mkColor 90 50 (65 - 25)) = colorToCSS (mkColor 90 50 40) /\
  mkColor 90 50 (65 - 25) = mkColor 90 50 40.
Proof.
  split; [reflexivity|].
  apply (colorToCSS_inj (mkColor 90 50 (65 - 25)) (mkColor 90 50 40)).
  reflexivity.
Defined.

(** ** The shape of the state of a session *)

Lemma Shape_init : Shape initialState.
Proof.
  constructor; cbn; try lia; try reflexivity; try discriminate.
  - vm_compute. split; congruence.
  - intros H. now contradiction H.
Qed.

Lemma Shape_start (w : World) : Rng_ok (rng w) -> Shape (state (start w)).
Proof.
  intros Hg. rewrite start_eq. cbn [state commit]. rewrite startGame_eq.
  cbv zeta.
  constructor;
    cbn [status score timeLeft level gridSize baseColor diffColor diffIndex
           lastDiffInfo last_shape];
    try lia; try discriminate; try reflexivity.
  - apply (generateColors_diffIndex (rng w) Hg 1).
  - intros _. now apply generateColors_round_colors.
Qed.

Lemma Shape_select (w : World) (index : Z) :
  Inv w -> Shape (state w) -> Shape (state (select w index)).
Proof.
  intros I Sh. destruct (status (state w)) eqn:Es.
  1, 3: rewrite select_not_playing by congruence; exact Sh.
  assert (Hni : status (state w) <> idle) by congruence.
  destruct Sh as [Hl Hsc Hgr Hix Ht Hov Hid Hco Hla].
  destruct (Z.eq_dec index (diffIndex (state w))) as [->|Hi].
  - rewrite select_correct by exact Es. cbv zeta. cbn [state].
    constructor;
      cbn [status score timeLeft level gridSize baseColor diffColor diffIndex
             lastDiffInfo last_shape delta base diff];
      try lia; try discriminate.
    + now rewrite generateColors_eq.
    + apply (generateColors_diffIndex (rng w) (inv_rng w I)).
    + intros _. apply generateColors_round_colors, I.
    + split; [lia|]. split; [now rewrite generateColors_eq|].
      exists (baseColor (state w)), (diffColor (state w)).
      split; [reflexivity|]. split; [reflexivity|].
      replace (level (state w) + 1 - 1) with (level (state w)) by lia.
      now apply Hco.
  - rewrite select_wrong by assumption. cbn [state]. unfold penalty.
    constructor;
      cbn [status score timeLeft level gridSize baseColor diffColor diffIndex
             lastDiffInfo];
      rewrite ?Es; try lia; try discriminate; auto.
Qed.

Lemma Shape_tick (w : World) :
  Inv w -> Shape (state w) -> Shape (state (tick w)).
Proof.
  intros I Sh. destruct (ticking w) eqn:Et.
  2: now rewrite tick_stopped.
  assert (Es : status (state w) = playing)
    by (apply Status_eqb_eq; rewrite <- (inv_ticking w I); exact Et).
  assert (Hni : status (state w) <> idle) by congruence.
  destruct Sh as [Hl Hsc Hgr Hix Ht Hov Hid Hco Hla].
  destruct (Z_le_gt_dec (timeLeft (state w)) 1).
  - rewrite tick_out by assumption. cbn [state].
    constructor;
      cbn [status score timeLeft level gridSize baseColor diffColor diffIndex
             lastDiffInfo];
      try lia; try discriminate; auto.
  - rewrite tick_down by (auto; lia). cbn [state].
    constructor;
      cbn [status score timeLeft level gridSize baseColor diffColor diffIndex
             lastDiffInfo];
      rewrite ?Es; try lia; try discriminate; auto.
Qed.

Lemma reachable_Shape (w : World) : reachable w -> Shape (state w).
Proof.
  induction 1 as [g Hg | w e Hw IH].
  - exact Shape_init.
  - pose proof (reachable_Inv w Hw) as I. destruct e; cbn [step].
    + apply Shape_start, I.
    + now apply Shape_select.
    + now apply Shape_tick.
Qed.

(** Case analysis on what one event does to a reachable state [w]: the goal
    must speak of [step w e]. *)
Ltac step_cases w e Hw :=
  let I := fresh "I" in
  let Es := fresh "Es" in
  let Et := fresh "Et" in
  pose proof (reachable_Inv w Hw) as I;
  pose proof (inv_ticking w I) as Et;
  destruct e as [|index|]; cbn [step];
  [ rewrite start_eq; cbn [commit state ticking rng];
    rewrite ?startGame_eq; cbv zeta
  | destruct (status (state w)) eqn:Es;
    [ rewrite select_not_playing by congruence
    | let Hi := fresh "Hi" in
      destruct (Z.eq_dec index (diffIndex (state w))) as [->|Hi];
      [ rewrite select_correct by exact Es; cbv zeta
      | rewrite select_wrong by assumption; unfold penalty ]
    | rewrite select_not_playing by congruence ]
  | destruct (status (state w)) eqn:Es; cbn [Status_eqb] in Et;
    [ rewrite tick_stopped by exact Et
    | let Hn := fresh "Hn" in
      destruct (Z_le_gt_dec (timeLeft (state w)) 1) as [Hn|Hn];
      [ rewrite tick_out by assumption
      | rewrite tick_down by (auto; lia) ]
    | rewrite tick_stopped by exact Et ] ];
  cbn [state ticking rng status score timeLeft level gridSize baseColor
         diffColor diffIndex lastDiffInfo].

(** X5. In every reachable state the score is the level minus one: both
    start together (0 and 1) and move together. *)
Theorem score_follows_level (w : World) :
  reachable w ->
  score (state w) = level (state w) - 1 /\
  1 <= level (state w) /\ 0 <= score (state w).
Proof.
  intros Hw. destruct (reachable_Shape w Hw). lia.
Qed.

Lemma score_follows_level_witness :
  reachable at_level3 /\
  score (state at_level3) = level (state at_level3) - 1 /\
  1 <= level (state at_level3) /\ 0 <= score (state at_level3).
Proof.
  assert (Hw : reachable at_level3) by apply reachable_quarter.
  split; [exact Hw | exact (score_follows_level at_level3 Hw)].
Defined.

(** X6. In every reachable state the grid size is the one of the current
    level, between 2 and 8, and the odd index is a block of the grid. *)
Theorem grid_fits_level (w : World) :
  reachable w ->
  gridSize (state w) = gridSize_of (level (state w)) /\
  2 <= gridSize (state w) <= 8 /\
  0 <= diffIndex (state w) < gridSize (state w) * gridSize (state w).
Proof.
  intros Hw. destruct (reachable_Shape w Hw) as [_ _ Hg Hi _ _ _ _ _].
  split; [exact Hg|]. split; [|exact Hi].
  rewrite Hg. apply gridSize_of_range.
Qed.

Lemma grid_fits_level_witness :
  reachable at_level3 /\
  gridSize (state at_level3) = gridSize_of (level (state at_level3)) /\
  2 <= gridSize (state at_level3) <= 8 /\
  0 <= diffIndex (state at_level3)
    < gridSize (state at_level3) * gridSize (state at_level3).
Proof.
  assert (Hw : reachable at_level3) by apply reachable_quarter.
  split; [exact Hw | exact (grid_fits_level at_level3 Hw)].
Defined.

(** X7. Once the session has been started, the two colours of the state
    have the same hue and saturation, their lightnesses are exactly
    [max(1, 15 - floor(level/4))] apart for the current level, the odd one
    stays in [15, 84], and the two colours are different. *)
Theorem colours_fit_level (w : World) :
  reachable w -> status (state w) <> idle ->
  let b := baseColor (state w) in
  let d := diffColor (state w) in
  h d = h b /\ s d = s b /\
  Z.abs (l d - l b) = Z.max 1 (15 - level (state w) / 4) /\
  15 <= l d <= 84 /\ d <> b.
Proof.
  intros Hw Hs b d. pose proof (reachable_Shape w Hw) as Sh.
  pose proof (shape_colors _ Sh Hs) as Hrc. fold b d in Hrc.
  destruct (round_colors_differ _ _ _ Hrc) as [Hne Habs].
  pose proof (delta_of_bounds _ (shape_level _ Sh)) as Hd.
  rewrite <- delta_of_spec. destruct Hrc. repeat split; auto; lia.
Qed.

Lemma colours_fit_level_witness :
  reachable at_level3 /\ status (state at_level3) <> idle /\
  Z.abs (l (diffColor (state at_level3)) - l (baseColor (state at_level3)))
  = Z.max 1 (15 - level (state at_level3) / 4) /\
  diffColor (state at_level3) <> baseColor (state at_level3).
Proof.
  assert (Hw : reachable at_level3) by apply reachable_quarter.
  assert (Hs : status (state at_level3) <> idle) by (vm_compute; congruence).
  split; [exact Hw|]. split; [exact Hs|].
  pose proof (colours_fit_level at_level3 Hw Hs) as H. cbv zeta in H.
  split; apply H.
Defined.

(** X8. The clock stays between 0 and 60 seconds, shows 0 in every ended
    session, and no selection or tick ever raises it: only a start does. *)
Theorem clock_runs_down (w : World) (e : Event) :
  reachable w ->
  0 <= timeLeft (state w) <= 60 /\
  (status (state w) = gameover -> timeLeft (state w) = 0) /\
  (not_start e = true ->
   timeLeft (state (step w e)) <= timeLeft (state w)).
Proof.
  intros Hw. pose proof (reachable_Shape w Hw) as Sh.
  pose proof (shape_time _ Sh) as Ht.
  split; [exact Ht|]. split; [apply Sh|].
  intros He. step_cases w e Hw; try discriminate He; lia.
Qed.

Lemma clock_runs_down_witness :
  reachable ended /\ status (state ended) = gameover /\
  not_start (Select 1) = true /\
  0 <= timeLeft (state ended) <= 60 /\ timeLeft (state ended) = 0 /\
  timeLeft (state (step ended (Select 1))) <= timeLeft (state ended).
Proof.
  assert (Hw : reachable ended) by apply reachable_quarter.
  split; [exact Hw|]. split; [reflexivity|]. split; [reflexivity|].
  destruct (clock_runs_down ended (Select 1) Hw) as (H1 & H2 & H3).
  split; [exact H1|]. split; [apply H2; reflexivity | apply H3; reflexivity].
Defined.

(** ** The life cycle *)

(** X9. The status changes in two ways only: a start takes a session that
    is not playing to playing, and a tick with at most one second left takes
    a playing session to ended. A selection never changes the status, and
    nothing leads back to idle. *)
Theorem status_transitions (w : World) (e : Event) :
  reachable w -> status (state (step w e)) <> status (state w) ->
  (e = Start /\ status (state w) <> playing /\
   status (state (step w e)) = playing) \/
  (e = Tick /\ status (state w) = playing /\ timeLeft (state w) <= 1 /\
   status (state (step w e)) = gameover).
Proof.
  intros Hw. step_cases w e Hw; intros Hne; try congruence.
  - left. repeat split. intros Hp. now rewrite Hp in Hne.
  - right. repeat split. exact Hn.
Qed.

Lemma status_transitions_witness :
  reachable ended /\
  status (state (step ended Start)) <> status (state ended) /\
  status (state (step ended Start)) = playing.
Proof.
  assert (Hw : reachable ended) by apply reachable_quarter.
  assert (Hne : status (state (step ended Start)) <> status (state ended))
    by (vm_compute; congruence).
  split; [exact Hw|]. split; [exact Hne|].
  destruct (status_transitions ended Start Hw Hne) as [(_ & _ & H)|(H & _)];
    [exact H | discriminate H].
Defined.

(** X10. A reachable session that is idle has never been started: its state
    is the initial one, and no countdown runs. *)
Theorem idle_is_initial (w : World) :
  reachable w -> status (state w) = idle ->
  state w = initialState /\ ticking w = false.
Proof.
  intros Hw Hs. split.
  - now apply (shape_idle _ (reachable_Shape w Hw)).
  - apply not_playing_stopped; congruence.
Qed.

Lemma idle_is_initial_witness :
  reachable (run [Select 0; Tick; Select 1] (init quarter)) /\
  status (state (run [Select 0; Tick; Select 1] (init quarter))) = idle /\
  state (run [Select 0; Tick; Select 1] (init quarter)) = initialState /\
  ticking (run [Select 0; Tick; Select 1] (init quarter)) = false.
Proof.
  assert (Hw : reachable (run [Select 0; Tick; Select 1] (init quarter)))
    by apply reachable_quarter.
  split; [exact Hw|]. split; [reflexivity|].
  exact (idle_is_initial _ Hw eq_refl).
Defined.

(** X11. The one-second interval runs exactly while the session is playing:
    it is set up when the status becomes playing and cleared when the
    session ends. *)
Theorem countdown_iff_playing (w : World) :
  reachable w -> (ticking w = true <-> status (state w) = playing).
Proof.
  intros Hw. rewrite (inv_ticking w (reachable_Inv w Hw)).
  apply Status_eqb_eq.
Qed.

Lemma countdown_iff_playing_witness :
  reachable two_left /\
  (ticking two_left = true <-> status (state two_left) = playing).
Proof.
  assert (Hw : reachable two_left) by apply reachable_quarter.
  split; [exact Hw | exact (countdown_iff_playing two_left Hw)].
Defined.

(** ** How long a session lasts *)

Lemma run_not_playing (es : list Event) (w : World) :
  reachable w -> status (state w) <> playing ->
  forallb not_start es = true -> run es w = w.
Proof.
  intros Hw Hs. induction es as [|e es IH]; intros Hes; cbn in *.
  - reflexivity.
  - apply andb_prop in Hes. destruct Hes as [He Hes].
    destruct e; cbn in He; try discriminate; cbn [step].
    + rewrite select_not_playing by exact Hs. now apply IH.
    + rewrite tick_stopped by (now apply not_playing_stopped). now apply IH.
Qed.

Lemma ticks_cons (e : Event) (es : list Event) :
  ticks (e :: es) = (if is_tick e then 1 else 0) + ticks es.
Proof. unfold ticks. cbn [filter]. destruct (is_tick e); cbn [List.length]; lia. Qed.

Lemma selects_cons (e : Event) (es : list Event) :
  selects (e :: es) = (if is_select e then 1 else 0) + selects es.
Proof.
  unfold selects. cbn [filter]. destruct (is_select e); cbn [List.length]; lia.
Qed.

(** X13. A playing session is over once as many ticks as it had seconds
    left have gone by (one tick at least), whatever is selected in between:
    it is then ended, with the clock at 0. A session never outlasts 60
    ticks. *)
Theorem session_ends (es : list Event) (w : World) :
  reachable w -> status (state w) = playing ->
  forallb not_start es = true ->
  1 <= ticks es -> timeLeft (state w) <= ticks es ->
  status (state (run es w)) = gameover /\ timeLeft (state (run es w)) = 0.
Proof.
  revert w. induction es as [|e es IH]; intros w Hw Hs Hes H1 Ht.
  - cbn in H1. lia.
  - cbn [forallb] in Hes. apply andb_prop in Hes. destruct Hes as [He Hes].
    rewrite ticks_cons in H1, Ht.
    pose proof (reachable_step w e Hw) as Hw'.
    change (run (e :: es) w) with (run es (step w e)).
    pose proof (playing_ticking w Hw Hs) as Htk.
    destruct e as [|index|]; [discriminate He | |]; cbn [is_tick step] in *.
    + apply IH; auto.
      * destruct (Z.eq_dec index (diffIndex (state w))) as [->|Hi].
        -- rewrite select_correct by exact Hs. reflexivity.
        -- rewrite select_wrong by assumption. exact Hs.
      * pose proof (inv_timeLeft w (reachable_Inv w Hw)).
        destruct (Z.eq_dec index (diffIndex (state w))) as [->|Hi].
        -- rewrite select_correct by exact Hs. cbn. lia.
        -- rewrite select_wrong by assumption. cbn. lia.
    + destruct (Z_le_gt_dec (timeLeft (state w)) 1) as [Hn|Hn].
      * rewrite run_not_playing; auto.
        -- rewrite tick_out by assumption. auto.
        -- rewrite tick_out by assumption. cbn. discriminate.
      * apply IH; auto.
        -- rewrite tick_down by (auto; lia). exact Hs.
        -- lia.
        -- rewrite tick_down by (auto; lia). cbn. lia.
Qed.

Lemma session_ends_witness :
  reachable started /\ status (state started) = playing /\
  forallb not_start (Select 0 :: repeat Tick 60) = true /\
  1 <= ticks (Select 0 :: repeat Tick 60) /\
  timeLeft (state started) <= ticks (Select 0 :: repeat Tick 60) /\
  status (state (run (Select 0 :: repeat Tick 60) started)) = gameover /\
  timeLeft (state (run (Select 0 :: repeat Tick 60) started)) = 0.
Proof.
  assert (Hw : reachable started) by apply reachable_quarter.
  assert (Hs : status (state started) = playing) by (vm_compute; reflexivity).
  assert (He : forallb not_start (Select 0 :: repeat Tick 60) = true)
    by (vm_compute; reflexivity).
  assert (H1 : 1 <= ticks (Select 0 :: repeat Tick 60))
    by (vm_compute; congruence).
  assert (Ht : timeLeft (state started) <= ticks (Select 0 :: repeat Tick 60))
    by (vm_compute; congruence).
  split; [exact Hw|]. split; [exact Hs|]. split; [exact He|].
  split; [exact H1|]. split; [exact Ht|].
  exact (session_ends (Select 0 :: repeat Tick 60) started Hw Hs He H1 Ht).
Defined.

(** X14. A playing session does not end early: as long as the ticks gone
    by plus three seconds for each selection stay below the seconds it had
    left, it is still playing, with at least the difference on the clock. *)
Theorem session_lasts (es : list Event) (w : World) :
  reachable w -> status (state w) = playing ->
  forallb not_start es = true ->
  ticks es + 3 * selects es < timeLeft (state w) ->
  status (state (run es w)) = playing /\
  timeLeft (state w) - ticks es - 3 * selects es
  <= timeLeft (state (run es w)).
Proof.
  revert w. induction es as [|e es IH]; intros w Hw Hs Hes Ht.
  - cbn [run fold_left]. split; [exact Hs|]. unfold ticks, selects. cbn. lia.
  - cbn [forallb] in Hes. apply andb_prop in Hes. destruct Hes as [He Hes].
    rewrite ticks_cons, selects_cons in *.
    pose proof (reachable_step w e Hw) as Hw'.
    change (run (e :: es) w) with (run es (step w e)).
    pose proof (playing_ticking w Hw Hs) as Htk.
    assert (0 <= ticks es /\ 0 <= selects es) as [? ?]
      by (unfold ticks, selects; lia).
    destruct e as [|index|]; [discriminate He | |];
      cbn [is_tick is_select step] in *.
    + destruct (Z.eq_dec index (diffIndex (state w))) as [->|Hi].
      * destruct (IH (select w (diffIndex (state w)))) as [H1 H2]; auto.
        -- rewrite select_correct by exact Hs. reflexivity.
        -- rewrite select_correct by exact Hs. cbv zeta. cbn [state timeLeft]. lia.
        -- split; [exact H1|].
           rewrite select_correct in H2 at 1 by exact Hs. cbv zeta in H2. cbn [state timeLeft] in H2. lia.
      * destruct (IH (select w index)) as [H1 H2]; auto.
        -- rewrite select_wrong by assumption. exact Hs.
        -- rewrite select_wrong by assumption. cbn [state timeLeft penalty]. lia.
        -- split; [exact H1|].
           rewrite select_wrong in H2 at 1 by assumption. cbn [state timeLeft penalty] in H2. lia.
    + destruct (IH (tick w)) as [H1 H2]; auto.
      * rewrite tick_down by (auto; lia). exact Hs.
      * rewrite tick_down by (auto; lia). cbn [state timeLeft]. lia.
      * split; [exact H1|].
        rewrite tick_down in H2 at 1 by (auto; lia). cbn [state timeLeft] in H2. lia.
Qed.

Lemma session_lasts_witness :
  reachable started /\ status (state started) = playing /\
  forallb not_start (Select 0 :: repeat Tick 56) = true /\
  ticks (Select 0 :: repeat Tick 56) + 3 * selects (Select 0 :: repeat Tick 56)
  < timeLeft (state started) /\
  status (state (run (Select 0 :: repeat Tick 56) started)) = playing /\
  timeLeft (state started) - ticks (Select 0 :: repeat Tick 56)
    - 3 * selects (Select 0 :: repeat Tick 56)
  <= timeLeft (state (run (Select 0 :: repeat Tick 56) started)).
Proof.
  assert (Hw : reachable started) by apply reachable_quarter.
  assert (Hs : status (state started) = playing) by (vm_compute; reflexivity).
  assert (He : forallb not_start (Select 0 :: repeat Tick 56) = true)
    by (vm_compute; reflexivity).
  assert (Ht : ticks (Select 0 :: repeat Tick 56)
               + 3 * selects (Select 0 :: repeat Tick 56)
               < timeLeft (state started)) by (vm_compute; congruence).
  split; [exact Hw|]. split; [exact Hs|]. split; [exact He|].
  split; [exact Ht|].
  exact (session_lasts (Select 0 :: repeat Tick 56) started Hw Hs He Ht).
Defined.

(** ** The grid on screen *)

Lemma blocks_length (st : GameState) :
  List.length (renderGrid st) = Z.to_nat (gridSize st * gridSize st).
Proof. unfold renderGrid, blocks. now rewrite !length_map, length_seq. Qed.

Lemma nth_error_indices (a len k : nat) :
  (k < len)%nat ->
  nth_error (map Z.of_nat (seq a len)) k = Some (Z.of_nat (a + k)).
Proof.
  revert a k. induction len as [|len IH]; intros a k Hk; [lia|].
  destruct k as [|k]; cbn.
  - now rewrite Nat.add_0_r.
  - rewrite IH by lia. do 2 f_equal. lia.
Qed.

(** The blocks that are not of colour [B], when block [d] has colour [D]
    and every other one has colour [B]. *)
Lemma odd_blocks (B D : string) (d : Z) (a len : nat) :
  D <> B ->
  filter (fun c => negb (String.eqb c B))
    (map (fun i => if i =? d then D else B) (map Z.of_nat (seq a len)))
  = if (Z.of_nat a <=? d) && (d <? Z.of_nat (a + len)) then [D] else [].
Proof.
  intros HDB. revert a. induction len as [|len IH]; intros a.
  - cbn. destruct (Z.leb_spec (Z.of_nat a) d), (Z.ltb_spec d (Z.of_nat (a + 0)));
      cbn; try reflexivity; lia.
  - cbn [seq map filter]. rewrite IH.
    destruct (Z.eqb_spec (Z.of_nat a) d) as [E|E].
    + apply String.eqb_neq in HDB. rewrite HDB. cbn [negb].
      destruct (Z.leb_spec (Z.of_nat (S a)) d); [lia|].
      destruct (Z.leb_spec (Z.of_nat a) d); [|lia].
      destruct (Z.ltb_spec d (Z.of_nat (a + S len))); [|lia].
      reflexivity.
    + rewrite String.eqb_refl. cbn [negb].
      destruct (Z.leb_spec (Z.of_nat (S a)) d),
        (Z.leb_spec (Z.of_nat a) d),
        (Z.ltb_spec d (Z.of_nat (S a + len))),
        (Z.ltb_spec d (Z.of_nat (a + S len)));
        cbn; try reflexivity; lia.
Qed.

(** X15. While playing, the grid on screen has [gridSize * gridSize] blocks,
    between 4 and 64; the block at the odd index has the CSS text of the odd
    colour, which is not the text of the base colour, and it is the only
    block that does not have the text of the base colour. *)
Theorem one_odd_block (w : World) :
  reachable w -> status (state w) = playing ->
  let st := state w in
  List.length (renderGrid st) = Z.to_nat (gridSize st * gridSize st) /\
  (4 <= List.length (renderGrid st) <= 64)%nat /\
  nth_error (renderGrid st) (Z.to_nat (diffIndex st))
  = Some (colorToCSS (diffColor st)) /\
  colorToCSS (diffColor st) <> colorToCSS (baseColor st) /\
  filter (fun c => negb (String.eqb c (colorToCSS (baseColor st))))
    (renderGrid st)
  = [colorToCSS (diffColor st)].
Proof.
  intros Hw Hs st. pose proof (reachable_Shape w Hw) as Sh. fold st in Sh.
  assert (Hni : status st <> idle) by (subst st; congruence).
  pose proof (shape_index _ Sh) as Hi.
  pose proof (gridSize_of_range (level st)) as Hg.
  rewrite <- (shape_grid _ Sh) in Hg.
  destruct (round_colors_differ _ _ _ (shape_colors _ Sh Hni)) as [Hne _].
  assert (Hcss : colorToCSS (diffColor st) <> colorToCSS (baseColor st))
    by (intros E; now apply colorToCSS_text_inj in E).
  split; [apply blocks_length|]. split; [rewrite blocks_length; nia|].
  split; [|split; [exact Hcss|]].
  - unfold renderGrid, blocks. rewrite nth_error_map, nth_error_indices by lia.
    cbn [option_map]. unfold blockColor.
    rewrite Nat.add_0_l, Z2Nat.id, Z.eqb_refl by lia. reflexivity.
  - unfold renderGrid, blocks.
    change (blockColor st)
      with (fun i => if i =? diffIndex st then colorToCSS (diffColor st)
                     else colorToCSS (baseColor st)).
    rewrite odd_blocks by exact Hcss.
    rewrite Nat.add_0_l, Z2Nat.id by nia.
    destruct (Z.leb_spec (Z.of_nat 0) (diffIndex st)); [|lia].
    destruct (Z.ltb_spec (diffIndex st) (gridSize st * gridSize st)); [|lia].
    reflexivity.
Qed.

Lemma one_odd_block_witness :
  reachable at_level3 /\ status (state at_level3) = playing /\
  List.length (renderGrid (state at_level3)) = 9%nat /\
  filter (fun c =>
            negb (String.eqb c (colorToCSS (baseColor (state at_level3)))))
    (renderGrid (state at_level3))
  = [colorToCSS (diffColor (state at_level3))].
Proof.
  assert (Hw : reachable at_level3) by apply reachable_quarter.
  split; [exact Hw|]. split; [reflexivity|].
  pose proof (one_odd_block at_level3 Hw eq_refl) as H. cbv zeta in H.
  split; [exact (proj1 H) | apply H].
Defined.

(** ** The report *)

Lemma visualPrecision_eq (sc : Z) : visualPrecision sc = Z.min 100 (5 * sc / 2).
Proof.
  unfold visualPrecision, Qdiv, Qmult, Qinv, inject_Z, Qfloor. cbn.
  f_equal. rewrite Z.mul_1_r.
  replace (sc * 100) with (5 * sc * 20) by lia.
  change 40 with (2 * 20). apply Z.div_mul_cancel_r; lia.
Qed.

(** X18. The visual precision of the report is a whole percentage between
    0 and 100 for every score from 0 on: it is [floor(2.5 * score)] capped
    at 100, it never goes down when the score goes up, and it is 100
    exactly from score 40 on. *)
Theorem visualPrecision_range (sc sc' : Z) :
  0 <= sc <= sc' ->
  visualPrecision sc = Z.min 100 (5 * sc / 2) /\
  0 <= visualPrecision sc <= 100 /\
  visualPrecision sc <= visualPrecision sc' /\
  (visualPrecision sc = 100 <-> 40 <= sc).
Proof.
  intros Hsc. rewrite !visualPrecision_eq.
  assert (0 <= 5 * sc / 2) by (apply Z.div_pos; lia).
  assert (5 * sc / 2 <= 5 * sc' / 2) by (apply Z.div_le_mono; lia).
  split; [reflexivity|]. split; [lia|]. split; [lia|]. split; intros H40.
  - destruct (Z_lt_le_dec sc 40) as [Hlt|]; [|assumption].
    assert (5 * sc / 2 < 100) by (apply Z.div_lt_upper_bound; lia). lia.
  - assert (100 <= 5 * sc / 2) by (apply Z.div_le_lower_bound; lia). lia.
Qed.

Lemma visualPrecision_range_witness :
  0 <= 21 <= 40 /\ visualPrecision 21 = 52 /\
  visualPrecision 21 <= visualPrecision 40 /\ visualPrecision 40 = 100.
Proof.
  assert (H : 0 <= 21 <= 40) by lia.
  split; [exact H|]. split; [reflexivity|].
  split; [apply (visualPrecision_range 21 40 H) | reflexivity].
Defined.

(** * The grid that outlives the session *)

(** ** A click, case by case *)

Lemma select_is_click (w : World) (index : Z) :
  select w index = click (state w) w index.
Proof. reflexivity. Qed.

(** The guard: a click on a grid drawn by a render that was not playing
    changes nothing. *)
Lemma click_guard (closure : GameState) (w : World) (index : Z) :
  status closure <> playing -> click closure w index = w.
Proof.
  intros Hs. destruct w as [st t g]. unfold click, handleBlockClick.
  cbn [state rng ticking].
  destruct (status closure); try congruence; cbn;
    apply commit_same_status; reflexivity.
Qed.

Lemma click_wrong (closure : GameState) (w : World) (index : Z) :
  status closure = playing -> index <> diffIndex closure ->
  click closure w index = mkWorld (penalty (state w)) (ticking w) (rng w).
Proof.
  intros Hs Hi. unfold click, handleBlockClick. rewrite Hs.
  cbn [Status_eqb negb].
  destruct (Z.eqb_spec index (diffIndex closure)) as [|_]; [contradiction|].
  cbn. apply commit_same_status. reflexivity.
Qed.

(** The click on the odd block of a playing render: level and score come
    from the render, everything else from the committed state; whether the
    committed state is still playing is not looked at. *)
Lemma click_correct (closure : GameState) (w : World) :
  status closure = playing ->
  click closure w (diffIndex closure) =
  let r := fst (generateColors (level closure + 1) (rng w)) in
  mkWorld
    (mkGameState (status (state w)) (score closure + 1) (timeLeft (state w))
       (level closure + 1) (r_gridSize r) (r_baseColor r) (r_diffColor r)
       (r_diffIndex r)
       (Some (mkDiffInfo (colorToCSS (baseColor (state w)))
                (colorToCSS (diffColor (state w))) (r_delta r))))
    (ticking w)
    (snd (generateColors (level closure + 1) (rng w))).
Proof.
  intros Hs. unfold click, handleBlockClick. rewrite Hs, Z.eqb_refl.
  cbn [Status_eqb negb]. cbv zeta.
  change (let (update, g') := nextLevel (level closure) (score closure) (rng w) in
          commit w (update (state w)) (ticking w) g')
    with (commit w
            (fst (nextLevel (level closure) (score closure) (rng w)) (state w))
            (ticking w)
            (snd (nextLevel (level closure) (score closure) (rng w)))).
  rewrite commit_same_status by (cbn; reflexivity).
  reflexivity.
Qed.

(** ** The invariant of the screen *)

Lemma paint_playing (shown : option GameState) (w' : World) :
  status (state w') = playing -> paint shown w' = Some (state w').
Proof. intros E. unfold paint. now rewrite E. Qed.

Lemma paint_not_playing (shown : option GameState) (w' : World) :
  status (state w') <> playing -> paint shown w' = shown.
Proof.
  intros E. unfold paint. destruct (status (state w')); congruence || reflexivity.
Qed.

Lemma grid_fits_playing (st : GameState) :
  status st = playing -> 1 <= level st -> grid_fits (Some st) st.
Proof. intros Hs Hl. cbn. auto. Qed.

Lemma last_late_playing (st : GameState) :
  status st = playing -> last_late st ->
  match lastDiffInfo st with
  | None => score st = 0
  | Some d =>
      1 <= score st /\ delta d = delta_of (level st) /\
      exists b c, base d = colorToCSS b /\ diff d = colorToCSS c /\
                  round_colors (level st - 1) b c
  end.
Proof.
  intros Hs. unfold last_late. destruct (lastDiffInfo st) as [d|]; [|auto].
  intros (H1 & H2 & b & c & Hb & Hc & [H|[H _]]); [|congruence].
  split; [exact H1|]. split; [exact H2|]. exists b, c. auto.
Qed.

Lemma OnScreen_mount (g : Rng) : Rng_ok g -> OnScreen (mount g).
Proof.
  intros Hg. constructor; cbn.
  - now apply Inv_init.
  - reflexivity.
  - intros H. now contradiction H.
  - reflexivity.
  - discriminate.
Qed.

Lemma OnScreen_start (sc : Screen) :
  OnScreen sc -> OnScreen (act sc PressStart).
Proof.
  intros [I _ _ _ _]. cbn [act]. unfold show.
  assert (Hs : status (state (start (world sc))) = playing) by reflexivity.
  rewrite paint_playing by exact Hs.
  constructor; cbn [world grid].
  - now apply Inv_start.
  - reflexivity.
  - intros _. rewrite start_eq. cbn [state commit]. rewrite startGame_eq.
    cbv zeta. cbn [level baseColor diffColor].
    apply generateColors_round_colors, I.
  - reflexivity.
  - apply grid_fits_playing; [exact Hs | reflexivity].
Qed.

Lemma OnScreen_tick (sc : Screen) :
  OnScreen sc -> OnScreen (act sc TimerFires).
Proof.
  intros [I Hsc Hco Hla Hgr]. cbn [act]. unfold show.
  destruct (ticking (world sc)) eqn:Et.
  2:{ rewrite tick_stopped by exact Et.
      assert (Hs : status (state (world sc)) <> playing).
      { intros E. rewrite (inv_ticking _ I), E in Et. discriminate. }
      rewrite paint_not_playing by exact Hs.
      destruct sc; now constructor. }
  assert (Es : status (state (world sc)) = playing)
    by (apply Status_eqb_eq; rewrite <- (inv_ticking _ I); exact Et).
  assert (Hni : status (state (world sc)) <> idle) by congruence.
  pose proof (Inv_tick _ I) as I'.
  pose proof (last_late_playing _ Es Hla) as Hla'.
  destruct (grid sc) as [closure|] eqn:Eg; cbn [grid_fits] in Hgr;
    [|contradiction].
  destruct Hgr as (Hc & Hlc & [[_ ->]|[E _]]); [|congruence].
  revert I'.
  destruct (Z_le_gt_dec (timeLeft (state (world sc))) 1).
  - rewrite tick_out by assumption. intros I'.
    rewrite paint_not_playing by (cbn; discriminate).
    constructor; cbn [world grid state status score level baseColor diffColor
                        lastDiffInfo timeLeft].
    + exact I'.
    + exact Hsc.
    + intros _. now apply Hco.
    + unfold last_late. cbn [lastDiffInfo score level status].
      destruct (lastDiffInfo (state (world sc))) as [d|]; [|exact Hla'].
      destruct Hla' as (H1 & H2 & b & c & Hb & Hc' & Hrc).
      split; [exact H1|]. split; [exact H2|]. exists b, c. auto.
    + cbn [grid_fits status timeLeft level score].
      split; [exact Es|]. split; [exact Hlc|]. right. auto.
  - rewrite tick_down by (auto; lia). intros I'.
    rewrite paint_playing by (cbn; exact Es).
    constructor; cbn [world grid state status score level baseColor diffColor
                        lastDiffInfo timeLeft].
    + exact I'.
    + exact Hsc.
    + intros _. now apply Hco.
    + exact Hla.
    + apply grid_fits_playing; cbn [status level]; assumption.
Qed.

Lemma Inv_click (closure : GameState) (w : World) (index : Z) :
  Inv w -> 1 <= level closure -> 0 <= score closure ->
  Inv (click closure w index).
Proof.
  intros I Hl Hs. destruct (status closure) eqn:Es.
  1, 3: rewrite click_guard by congruence; exact I.
  destruct I as [Ht Hn Hlv Hsc Hg].
  destruct (Z.eq_dec index (diffIndex closure)) as [->|Hi].
  - rewrite click_correct by exact Es.
    constructor; cbv zeta; cbn [state ticking rng status timeLeft level score];
      try lia; try assumption; try (now apply generateColors_ok).
  - rewrite click_wrong by assumption.
    constructor; cbn; try lia; auto.
Qed.

Lemma OnScreen_click (sc : Screen) (index : Z) :
  OnScreen sc -> OnScreen (act sc (ClickBlock index)).
Proof.
  intros O. pose proof O as [I Hsc Hco Hla Hgr]. cbn [act].
  destruct (grid sc) as [closure|] eqn:Eg; [|exact O].
  cbn [grid_fits] in Hgr. destruct Hgr as (Hc & Hlc & Hrel).
  pose proof (inv_level _ I) as Hlv.
  assert (Hscc : score closure = level closure - 1).
  { destruct Hrel as [[_ ->]|(_ & _ & [[E1 E2]|[E1 E2]])]; lia. }
  assert (Hni : status (state (world sc)) <> idle).
  { destruct Hrel as [[E _]|[E _]]; congruence. }
  pose proof (Inv_click closure (world sc) index I Hlc ltac:(lia)) as I'.
  unfold show. revert I'.
  destruct (Z.eq_dec index (diffIndex closure)) as [->|Hi].
  - (* the odd block *)
    rewrite click_correct by exact Hc. cbv zeta. intros I'.
    assert (Hnew :
      round_colors (level closure + 1)
        (r_baseColor (fst (generateColors (level closure + 1) (rng (world sc)))))
        (r_diffColor (fst (generateColors (level closure + 1) (rng (world sc))))))
      by apply generateColors_round_colors, I.
    assert (Hdelta :
      r_delta (fst (generateColors (level closure + 1) (rng (world sc))))
      = delta_of (level closure + 1))
      by now rewrite generateColors_eq.
    assert (Hold :
      round_colors (level closure + 1 - 1) (baseColor (state (world sc)))
        (diffColor (state (world sc))) \/
      (status (state (world sc)) = gameover /\
       round_colors (level closure + 1) (baseColor (state (world sc)))
         (diffColor (state (world sc))))).
    { pose proof (Hco Hni) as Hrc.
      destruct Hrel as [[_ E]|(Eo & _ & [[E1 _]|[E1 _]])].
      - left. rewrite E. now replace (level (state (world sc)) + 1 - 1)
                           with (level (state (world sc))) by lia.
      - left. now replace (level closure + 1 - 1)
                with (level (state (world sc))) by lia.
      - right. split; [exact Eo|]. now rewrite <- E1. }
    destruct Hrel as [[Ep _]|(Eo & Et & _)].
    + rewrite paint_playing by (cbn [state status]; exact Ep).
      constructor; cbn [world grid state status score level baseColor
                          diffColor lastDiffInfo timeLeft].
      * exact I'.
      * lia.
      * intros _. exact Hnew.
      * unfold last_late. cbn [lastDiffInfo score level status delta base diff].
        split; [lia|]. split; [exact Hdelta|].
        exists (baseColor (state (world sc))), (diffColor (state (world sc))).
        split; [reflexivity|]. split; [reflexivity|]. exact Hold.
      * apply grid_fits_playing; cbn [status level]; [exact Ep | lia].
    + rewrite paint_not_playing by (cbn [state status]; congruence).
      constructor; cbn [world grid state status score level baseColor
                          diffColor lastDiffInfo timeLeft].
      * exact I'.
      * lia.
      * intros _. exact Hnew.
      * unfold last_late. cbn [lastDiffInfo score level status delta base diff].
        split; [lia|]. split; [exact Hdelta|].
        exists (baseColor (state (world sc))), (diffColor (state (world sc))).
        split; [reflexivity|]. split; [reflexivity|]. exact Hold.
      * cbn [grid_fits status timeLeft level score].
        split; [exact Hc|]. split; [exact Hlc|]. right. auto.
  - (* another block *)
    rewrite click_wrong by assumption. unfold penalty. intros I'.
    destruct Hrel as [[Ep E]|(Eo & Et & Hrel)].
    + rewrite paint_playing by (cbn [state status]; exact Ep).
      constructor; cbn [world grid state status score level baseColor
                          diffColor lastDiffInfo timeLeft].
      * exact I'.
      * exact Hsc.
      * intros _. now apply Hco.
      * exact Hla.
      * apply grid_fits_playing; cbn [status level]; assumption.
    + rewrite paint_not_playing by (cbn [state status]; congruence).
      constructor; cbn [world grid state status score level baseColor
                          diffColor lastDiffInfo timeLeft].
      * exact I'.
      * exact Hsc.
      * intros _. now apply Hco.
      * exact Hla.
      * cbn [grid_fits status timeLeft level score].
        split; [exact Hc|]. split; [exact Hlc|]. right.
        split; [exact Eo|]. split; [rewrite Et; reflexivity | exact Hrel].
Qed.

Lemma OnScreen_gone (sc : Screen) : OnScreen sc -> OnScreen (act sc GridGone).
Proof.
  intros O. cbn [act].
  destruct (status (state (world sc))) eqn:Es; cbn [Status_eqb]; [|exact O|];
    destruct O; constructor; cbn [world grid grid_fits]; auto; congruence.
Qed.

Lemma on_screen_OnScreen (sc : Screen) : on_screen sc -> OnScreen sc.
Proof.
  induction 1 as [g Hg | sc a _ IH].
  - now apply OnScreen_mount.
  - destruct a.
    + now apply OnScreen_start.
    + now apply OnScreen_click.
    + now apply OnScreen_tick.
    + now apply OnScreen_gone.
Qed.

(** While the session is playing, a click on the screen is [select]. *)
Lemma click_while_playing (sc : Screen) (index : Z) :
  on_screen sc -> status (state (world sc)) = playing ->
  world (act sc (ClickBlock index)) = select (world sc) index.
Proof.
  intros Hsc Hs. pose proof (os_grid _ (on_screen_OnScreen sc Hsc)) as Hgr.
  cbn [act]. destruct (grid sc) as [closure|]; cbn [grid_fits] in Hgr.
  - destruct Hgr as (_ & _ & [[_ ->]|[E _]]); [reflexivity | congruence].
  - contradiction.
Qed.

Lemma on_screen_play (acts : list Action) (sc : Screen) :
  on_screen sc -> on_screen (play acts sc).
Proof.
  revert sc. induction acts as [|a acts IH]; intros sc Hsc; cbn.
  - exact Hsc.
  - apply IH. now apply on_screen_act.
Qed.

Lemma on_screen_quarter (acts : list Action) :
  on_screen (play acts (mount quarter)).
Proof. apply on_screen_play, on_screen_mount, quarter_ok. Qed.

(** ** After the end of the session *)

(** C9, on a concrete session. A session runs out of time at level 1; its
    last grid, drawn with one second left, is still on screen. A further
    tick changes nothing, and neither does a click on another block than
    the odd one. A click on the odd block (index 1) passes the guard, which
    reads the status of the render that drew the grid, and rewrites the
    ended session: score 1, level 2, a new round and a last comparison, in
    a session that is still ended. *)
Theorem late_click_changes_ended :
  state (world ended_screen) =
    mkGameState gameover 0 0 1 2 (mkColor 90 50 40) (mkColor 90 50 25) 1 None /\
  grid ended_screen =
    Some (mkGameState playing 0 1 1 2 (mkColor 90 50 40) (mkColor 90 50 25) 1
            None) /\
  state (world (act ended_screen TimerFires)) = state (world ended_screen) /\
  state (world (act ended_screen (ClickBlock 0))) = state (world ended_screen) /\
  state (world (act ended_screen (ClickBlock 1))) =
    mkGameState gameover 1 0 2 2 (mkColor 90 50 40) (mkColor 90 50 25) 1
      (Some (mkDiffInfo "hsl(90, 50%, 40%)" "hsl(90, 50%, 25%)" 15)).
Proof. repeat split; vm_compute; reflexivity. Qed.

(** X12. On the screen, an event other than the start button never lowers
    score or level: it leaves both as they are or adds one to both, and it
    adds one only when it is a click on the odd block of the grid on
    screen, be the session playing or already ended. *)
Theorem score_never_drops (sc : Screen) (a : Action) :
  on_screen sc -> a <> PressStart ->
  let st := state (world sc) in
  let st' := state (world (act sc a)) in
  (score st' = score st /\ level st' = level st) \/
  (score st' = score st + 1 /\ level st' = level st + 1 /\
   exists closure, grid sc = Some closure /\ a = ClickBlock (diffIndex closure)).
Proof.
  intros Hsc Ha. pose proof (on_screen_OnScreen sc Hsc) as [I Hs Hco Hla Hgr].
  cbv zeta. destruct a as [|index| |]; cbn [act]; [contradiction| | |].
  - destruct (grid sc) as [closure|] eqn:Eg; [|left; auto].
    cbn [grid_fits] in Hgr. destruct Hgr as (Hc & Hlc & Hrel).
    unfold show. cbn [world].
    destruct (Z.eq_dec index (diffIndex closure)) as [->|Hi].
    + rewrite click_correct by exact Hc. cbv zeta. cbn [state score level].
      destruct Hrel as [[_ E]|(_ & _ & [[E1 E2]|[E1 E2]])].
      * right. rewrite E. repeat split. now exists (state (world sc)).
      * right. rewrite E1, E2. repeat split. now exists closure.
      * left. lia.
    + rewrite click_wrong by assumption. left. auto.
  - unfold show. cbn [world]. left.
    destruct (ticking (world sc)) eqn:Et.
    2: now rewrite tick_stopped.
    assert (Es : status (state (world sc)) = playing)
      by (apply Status_eqb_eq; rewrite <- (inv_ticking _ I); exact Et).
    destruct (Z_le_gt_dec (timeLeft (state (world sc))) 1).
    + rewrite tick_out by assumption. auto.
    + rewrite tick_down by (auto; lia). auto.
  - left. destruct (Status_eqb _ _); auto.
Qed.

Lemma score_never_drops_witness :
  on_screen ended_screen /\ ClickBlock 1 <> PressStart /\
  status (state (world ended_screen)) = gameover /\
  score (state (world (act ended_screen (ClickBlock 1))))
  = score (state (world ended_screen)) + 1.
Proof.
  assert (Hsc : on_screen ended_screen) by apply on_screen_quarter.
  assert (Ha : ClickBlock 1 <> PressStart) by discriminate.
  split; [exact Hsc|]. split; [exact Ha|].
  split; [vm_compute; reflexivity|].
  destruct (score_never_drops ended_screen (ClickBlock 1) Hsc Ha)
    as [[H _]|[H _]].
  - vm_compute in H. discriminate H.
  - exact H.
Defined.

(** ** The celebration *)

Lemma confettiFires_spec (w w' : World) :
  confettiFires w w' = true <->
  (status (state w) <> status (state w') \/ score (state w) <> score (state w'))
  /\ status (state w') = gameover /\ 20 < score (state w').
Proof.
  unfold confettiFires, confettiEffect.
  rewrite !andb_true_iff, orb_true_iff, !negb_true_iff.
  rewrite Status_eqb_eq, Z.gtb_lt, Z.eqb_neq.
  assert (Hne : Status_eqb (status (state w)) (status (state w')) = false
                <-> status (state w) <> status (state w')).
  { rewrite <- Status_eqb_eq.
    destruct (Status_eqb (status (state w)) (status (state w')));
      split; congruence. }
  rewrite Hne. reflexivity.
Qed.

(** X16. Confetti is thrown by two events only: the tick that ends a
    playing session whose score is above 20, and the first click on the odd
    block of the grid still on screen after the end of a session whose
    score is at least 20. Nothing else throws any, and nothing is thrown
    when the component is mounted. *)
Theorem confetti_when (sc : Screen) (a : Action) :
  on_screen sc ->
  let st := state (world sc) in
  confettiEffect initialState = false /\
  (confettiFires (world sc) (world (act sc a)) = true <->
   (a = TimerFires /\ status st = playing /\ timeLeft st <= 1 /\
    20 < score st) \/
   (status st = gameover /\ 20 <= score st /\
    exists closure,
      grid sc = Some closure /\ a = ClickBlock (diffIndex closure) /\
      score st = score closure)).
Proof.
  intros Hsc. pose proof (on_screen_OnScreen sc Hsc) as [I Hs Hco Hla Hgr].
  cbv zeta. split; [reflexivity|]. rewrite confettiFires_spec.
  destruct a as [|index| |]; cbn [act].
  - (* the start button *)
    unfold show. cbn [world].
    assert (E : status (state (start (world sc))) = playing) by reflexivity.
    rewrite E. split.
    + intros (_ & H & _). discriminate H.
    + intros [(H & _)|(_ & _ & closure & _ & H & _)]; discriminate H.
  - (* a click *)
    destruct (grid sc) as [closure|] eqn:Eg.
    2:{ split.
        - intros ([H|H] & _); now contradiction H.
        - intros [(H & _)|(_ & _ & closure & H & _)]; discriminate H. }
    cbn [grid_fits] in Hgr. destruct Hgr as (Hc & Hlc & Hrel).
    unfold show. cbn [world].
    destruct (Z.eq_dec index (diffIndex closure)) as [->|Hi].
    + rewrite click_correct by exact Hc. cbv zeta. cbn [state status score].
      split.
      * intros ([H|H] & Ho & H20); [now contradiction H|].
        right. split; [exact Ho|].
        destruct Hrel as [[E _]|(_ & _ & [[_ E2]|[_ E2]])];
          [congruence| |lia].
        split; [lia|]. exists closure. auto.
      * intros [(H & _)|(Ho & H20 & closure' & [= <-] & _ & E)];
          [discriminate H|].
        split; [right; lia|]. split; [exact Ho | lia].
    + rewrite click_wrong by assumption. unfold penalty.
      cbn [state status score]. split.
      * intros ([H|H] & _); now contradiction H.
      * intros [(H & _)|(_ & _ & closure' & [= <-] & [= E] & _)];
          [discriminate H | contradiction].
  - (* the timer *)
    unfold show. cbn [world].
    destruct (ticking (world sc)) eqn:Et.
    2:{ rewrite tick_stopped by exact Et. split.
        - intros ([H|H] & _); now contradiction H.
        - intros [(_ & H & _)|(_ & _ & closure & _ & H & _)];
            [|discriminate H].
          rewrite (inv_ticking _ I), H in Et. discriminate Et. }
    assert (Es : status (state (world sc)) = playing)
      by (apply Status_eqb_eq; rewrite <- (inv_ticking _ I); exact Et).
    destruct (Z_le_gt_dec (timeLeft (state (world sc))) 1).
    + rewrite tick_out by assumption. cbn [state status score]. split.
      * intros (_ & _ & H20). left. auto.
      * intros [(_ & _ & _ & H20)|(H & _)]; [|congruence].
        split; [left; congruence | auto].
    + rewrite tick_down by (auto; lia). cbn [state status score]. split.
      * intros ([H|H] & _); now contradiction H.
      * intros [(_ & _ & H & _)|(H & _)]; [lia | congruence].
  - (* the grid is gone *)
    assert (E : world (if Status_eqb (status (state (world sc))) playing
                       then sc else mkScreen (world sc) None) = world sc)
      by (destruct (Status_eqb _ _); reflexivity).
    rewrite E. split.
    + intros ([H|H] & _); now contradiction H.
    + intros [(H & _)|(_ & _ & closure & _ & H & _)]; discriminate H.
Qed.

Lemma confetti_when_witness :
  on_screen ended_at_20 /\
  (status (state (world ended_at_20)) = gameover /\
   20 <= score (state (world ended_at_20)) /\
   exists closure,
     grid ended_at_20 = Some closure /\
     ClickBlock 9 = ClickBlock (diffIndex closure) /\
     score (state (world ended_at_20)) = score closure) /\
  confettiFires (world ended_at_20) (world (act ended_at_20 (ClickBlock 9)))
  = true.
Proof.
  assert (Hsc : on_screen ended_at_20) by apply on_screen_quarter.
  assert (H : status (state (world ended_at_20)) = gameover /\
              20 <= score (state (world ended_at_20)) /\
              exists closure,
                grid ended_at_20 = Some closure /\
                ClickBlock 9 = ClickBlock (diffIndex closure) /\
                score (state (world ended_at_20)) = score closure).
  { split; [vm_compute; reflexivity|]. split; [vm_compute; congruence|].
    exists (mkGameState playing 20 1 21 6 (mkColor 90 50 40) (mkColor 90 50 30)
              9 (Some (mkDiffInfo "hsl(90, 50%, 40%)" "hsl(90, 50%, 30%)" 10))).
    repeat split; vm_compute; reflexivity. }
  split; [exact Hsc|]. split; [exact H|].
  exact (proj2 (proj2 (confetti_when ended_at_20 (ClickBlock 9) Hsc))
           (or_intror H)).
Defined.

(** ** The last comparison, in general *)

(** X17. On the screen there is a last comparison exactly when the score is
    not 0. Its delta is the delta of the current level; its two texts are
    those of two colours of the same hue and saturation, whose lightnesses
    are the delta of the level before apart while the session is playing,
    and the delta of the level before or of the current level apart once the
    session has ended. *)
Theorem last_comparison_on_screen (sc : Screen) :
  on_screen sc ->
  let st := state (world sc) in
  match lastDiffInfo st with
  | None => score st = 0
  | Some d =>
      1 <= score st /\
      delta d = Z.max 1 (15 - level st / 4) /\
      exists b c,
        base d = colorToCSS b /\ diff d = colorToCSS c /\
        h c = h b /\ s c = s b /\
        (Z.abs (l c - l b) = Z.max 1 (15 - (level st - 1) / 4) \/
         (status st = gameover /\
          Z.abs (l c - l b) = Z.max 1 (15 - level st / 4)))
  end.
Proof.
  intros Hsc. cbv zeta.
  pose proof (os_last _ (on_screen_OnScreen sc Hsc)) as H.
  unfold last_late in H.
  destruct (lastDiffInfo (state (world sc))) as [d|]; [|exact H].
  destruct H as (Hs & Hd & b & c & Hb & Hc & Hrc).
  split; [exact Hs|]. split; [now rewrite <- delta_of_spec|].
  exists b, c. rewrite <- !delta_of_spec.
  destruct Hrc as [Hrc|[Ho Hrc]];
    destruct (round_colors_differ _ _ _ Hrc) as [_ Habs]; destruct Hrc; auto 10.
Qed.

Lemma last_comparison_on_screen_witness :
  on_screen (play [ClickBlock 2; ClickBlock 2] ended_at_level3) /\
  lastDiffInfo
    (state (world (play [ClickBlock 2; ClickBlock 2] ended_at_level3)))
  = Some (mkDiffInfo "hsl(90, 50%, 40%)" "hsl(90, 50%, 26%)" 14) /\
  level (state (world (play [ClickBlock 2; ClickBlock 2] ended_at_level3))) = 4 /\
  match
    lastDiffInfo
      (state (world (play [ClickBlock 2; ClickBlock 2] ended_at_level3)))
  with
  | None => False
  | Some d => delta d = Z.max 1 (15 - 4 / 4)
  end.
Proof.
  assert (Hsc : on_screen (play [ClickBlock 2; ClickBlock 2] ended_at_level3))
    by apply on_screen_play, on_screen_quarter.
  assert (Hl : level (state (world (play [ClickBlock 2; ClickBlock 2]
                                      ended_at_level3))) = 4)
    by (vm_compute; reflexivity).
  split; [exact Hsc|]. split; [vm_compute; reflexivity|]. split; [exact Hl|].
  pose proof (last_comparison_on_screen _ Hsc) as H. cbv zeta in H.
  rewrite Hl in H.
  destruct (lastDiffInfo (state (world (play [ClickBlock 2; ClickBlock 2]
                                          ended_at_level3)))) as [d|].
  - apply H.
  - vm_compute in H. discriminate H.
Defined.
